(** * Related-post recommendation: a shallow embedding of [getRelatedPosts]

    The development follows the TypeScript module that exports
    [getRelatedPosts] together with its two local helpers [tokenizeTitle]
    and [jaccardSimilarity].

    Modelling conventions.
    - JavaScript numbers are idealised as the real numbers [R]: [Math.exp]
      is [exp], [Math.LN2] is [ln 2], and the four arithmetic operations
      are the exact ones.  Rounding, overflow and NaN are outside the
      model; the one place where the source could produce NaN (a division
      by zero in [jaccardSimilarity]) is covered by a lemma on the divisor.
    - [Set<string>] is [gset string]; [new Set(array)] is [list_to_set].
    - [Date] values are their [getTime()] result, an integer number of
      milliseconds ([Z]).  [Date.now()] is the explicit argument [now].
    - [Intl.Segmenter] and [String.prototype.toLowerCase] belong to the
      host; they are section variables.
    - [Array.prototype.sort] is stable (ECMAScript 2019); it is modelled
      by a stable insertion sort driven by the numeric comparator.
    - [getCollection] is the corpus provider; its result is the argument
      [allPosts].
    - The listing functions ([getRawSortedPosts], [getSortedPosts],
      [getSortedPostsList], the calendar endpoint, [getTagList],
      [getCategoryList], [getEnabledFriends]) and the per-element retry
      loop of the diagram renderer follow; object literals used as
      counters are finite maps, and [Object.keys], [localeCompare],
      [trim], the translation of the "uncategorized" label and
      [getCategoryUrl] are section variables. *)

From Stdlib Require Import Reals Lra Lia ZArith Sorting.Sorted.
From stdpp Require Import base decidable list sorting gmap sets strings.

#[local] Set Warnings "-clear-no-such-hyp".

(** ** Host values *)

#[global] Instance Rlt_decision (x y : R) : Decision (x < y)%R := Rlt_dec x y.
#[global] Instance Rle_decision (x y : R) : Decision (x <= y)%R := Rle_dec x y.
#[global] Instance R_eq_decision : EqDecision R := Req_dec_T.

(** [x || ""] on an optional string. *)
Definition or_empty (x : option string) : string :=
  match x with
  | Some s => s
  | None => ""
  end.

(** [x || []] on an optional array. *)
Definition or_nil {A : Type} (x : option (list A)) : list A :=
  match x with
  | Some l => l
  | None => []
  end.

(** Truthiness of a string: the empty string is falsy. *)
Definition truthy (s : string) : bool :=
  match s with
  | EmptyString => false
  | String _ _ => true
  end.

(** Truthiness of an optional string ([undefined] is falsy). *)
Definition truthy_opt (x : option string) : bool :=
  match x with
  | Some s => truthy s
  | None => false
  end.

(** ** Content records *)

Record PostData : Type := mkPostData {
  title : string;
  tags : option (list string);
  category : option string;
  published : Z;
  password : option string
}.

(** [CollectionEntry<"posts">], restricted to the members the module reads. *)
Record Post : Type := mkPost {
  post_id : string;
  post_data : PostData
}.

Record PostForList : Type := mkPostForList {
  pfl_id : string;
  pfl_data : PostData
}.

#[global] Instance PostData_eq_dec : EqDecision PostData.
Proof. solve_decision. Defined.

#[global] Instance Post_eq_dec : EqDecision Post.
Proof. solve_decision. Defined.

#[global] Instance PostForList_eq_dec : EqDecision PostForList.
Proof. solve_decision. Defined.

(** The object literal returned by the scoring callback. *)
Record Scored : Type := mkScored {
  post : Post;
  totalScore : R;
  tagMatchScore : R;
  timeFreshnessScore : R;
  categoryBonus : R
}.

(** Own numeric properties of that object literal, by name. *)
Definition Scored_props (s : Scored) : list (string * R) :=
  [ ("totalScore", totalScore s);
    ("tagMatchScore", tagMatchScore s);
    ("timeFreshnessScore", timeFreshnessScore s);
    ("categoryBonus", categoryBonus s) ].

(** Outcome of awaiting the promise an [async] function returns. *)
Inductive Settled (A : Type) : Type :=
| Fulfilled (value : A)
| Rejected (reason : string).

Arguments Fulfilled {A} value.
Arguments Rejected {A} reason.

(** ** [jaccardSimilarity] *)

(** The [for (const item of a) if (b.has(item)) intersection++] loop. *)
Definition intersection_count (a b : gset string) : nat :=
  foldl (fun n item => if decide (item ∈ b) then S n else n) 0%nat (elements a).

(** [a.size + b.size - intersection]. *)
Definition jaccard_union (a b : gset string) : Z :=
  (Z.of_nat (size a) + Z.of_nat (size b) - Z.of_nat (intersection_count a b))%Z.

Definition jaccardSimilarity (a b : gset string) : R :=
  if decide (size a = 0%nat ∧ size b = 0%nat) then 0%R
  else
    let intersection := intersection_count a b in
    let union := jaccard_union a b in
    if decide (union = 0%Z) then 0%R
    else (INR intersection / IZR union)%R.

(** ** Sorting and the bounded push loop *)

(** Insertion of [x], which precedes every element of [l] in the array
    being sorted: [x] stays in front of [y] unless the comparator asks for
    [y] first ([cmp x y > 0]). *)
Fixpoint sort_insert {A : Type} (cmp : A -> A -> R) (x : A) (l : list A) : list A :=
  match l with
  | [] => [x]
  | y :: l' =>
      if decide (cmp x y <= 0)%R then x :: y :: l'
      else y :: sort_insert cmp x l'
  end.

(** [array.sort(cmp)]. *)
Definition array_sort {A : Type} (cmp : A -> A -> R) (l : list A) : list A :=
  foldr (sort_insert cmp) [] l.

(** A list in non-increasing order of [key]. *)
Definition descending {A : Type} (key : A -> R) : list A -> Prop :=
  StronglySorted (fun a b => (key b <= key a)%R).

(** [{ id: s.post.id, data: s.post.data }]. *)
Definition project (s : Scored) : PostForList :=
  mkPostForList (post_id (post s)) (post_data (post s)).

(** [for (const s of l) { if (result.length >= maxCount) break; result.push(...) }]. *)
Fixpoint push_loop (maxCount : Z) (result : list PostForList) (l : list Scored)
  : list PostForList :=
  match l with
  | [] => result
  | s :: l' =>
      if decide (Z.of_nat (length result) >= maxCount)%Z then result
      else push_loop maxCount (result ++ [project s]) l'
  end.

(** [(a, b) => b.totalScore - a.totalScore]. *)
Definition byTotalScore (a b : Scored) : R :=
  (totalScore b - totalScore a)%R.

(** [(a, b) => b.timeFreshnessScore + b.categoryBonus
               - (a.timeFreshnessScore + a.categoryBonus)]. *)
Definition byFreshnessAndCategory (a b : Scored) : R :=
  (timeFreshnessScore b + categoryBonus b
   - (timeFreshnessScore a + categoryBonus a))%R.

Section RelatedPosts.

(** [new Intl.Segmenter("zh", { granularity: "word" }).segment(title)],
    as the list of its [(segment, isWordLike)] items. *)
Variable segment : string -> list (string * bool).

(** [String.prototype.toLowerCase]. *)
Variable toLowerCase : string -> string.

Definition tokenizeTitle (t : string) : gset string :=
  foldl (fun (tokens : gset string) (item : string * bool) =>
           if snd item then tokens ∪ {[ toLowerCase (fst item) ]} else tokens)
        ∅ (segment t).

(** *** The scoring callback, one definition per local constant *)

Definition tagsOf (p : Post) : gset string :=
  list_to_set (or_nil (tags (post_data p))).

Definition tagMatchScoreOf (currentPost p : Post) : R :=
  (jaccardSimilarity (tagsOf currentPost) (tagsOf p) * 100)%R.

Definition titleSimilarityScoreOf (currentPost p : Post) : R :=
  (jaccardSimilarity (tokenizeTitle (title (post_data currentPost)))
                     (tokenizeTitle (title (post_data p))) * 100)%R.

Definition daysSincePublished (now : Z) (p : Post) : R :=
  (IZR (now - published (post_data p)) / (1000 * 60 * 60 * 24))%R.

Definition timeFreshnessScoreOf (now : Z) (p : Post) : R :=
  (30 * exp ((- ln 2 * daysSincePublished now p) / 180))%R.

Definition categoryBonusOf (currentPost p : Post) : R :=
  let currentCategory := or_empty (category (post_data currentPost)) in
  let postCategory := or_empty (category (post_data p)) in
  if truthy currentCategory && truthy postCategory
     && bool_decide (currentCategory = postCategory)
  then 10%R else 0%R.

Definition scoreCandidate (now : Z) (currentPost p : Post) : Scored :=
  let tagMatchScore := tagMatchScoreOf currentPost p in
  let titleSimilarityScore := titleSimilarityScoreOf currentPost p in
  let timeFreshnessScore := timeFreshnessScoreOf now p in
  let categoryBonus := categoryBonusOf currentPost p in
  let totalScore :=
    (tagMatchScore + titleSimilarityScore + timeFreshnessScore + categoryBonus)%R in
  mkScored p totalScore tagMatchScore timeFreshnessScore categoryBonus.

(** *** The stages of [getRelatedPosts] *)

Definition eligible (currentPost p : Post) : Prop :=
  post_id p ≠ post_id currentPost ∧ truthy_opt (password (post_data p)) = false.

#[global] Instance eligible_dec currentPost p : Decision (eligible currentPost p).
Proof. unfold eligible. apply _. Defined.

Definition candidates (allPosts : list Post) (currentPost : Post) : list Post :=
  filter (eligible currentPost) allPosts.

Definition scored (now : Z) (allPosts : list Post) (currentPost : Post) : list Scored :=
  scoreCandidate now currentPost <$> candidates allPosts currentPost.

Definition sortedScored (now : Z) (allPosts : list Post) (currentPost : Post)
  : list Scored :=
  array_sort byTotalScore (scored now allPosts currentPost).

Definition withTagMatch (l : list Scored) : list Scored :=
  filter (fun s => (0 < tagMatchScore s)%R) l.

Definition withoutTagMatch (l : list Scored) : list Scored :=
  filter (fun s => tagMatchScore s = 0%R) l.

(** The re-sorted list the second loop reads. *)
Definition fallbackTier (now : Z) (allPosts : list Post) (currentPost : Post)
  : list Scored :=
  array_sort byFreshnessAndCategory
             (withoutTagMatch (sortedScored now allPosts currentPost)).

Definition getRelatedPosts (now : Z) (allPosts : list Post)
           (currentPost : Post) (maxCount : Z) : list PostForList :=
  let sorted := sortedScored now allPosts currentPost in
  let withTag := withTagMatch sorted in
  let withoutTag := withoutTagMatch sorted in
  let result := push_loop maxCount [] withTag in
  if decide (Z.of_nat (length result) < maxCount)%Z then
    push_loop maxCount result (array_sort byFreshnessAndCategory withoutTag)
  else result.

(** The call as its caller sees it: [maxCount] may be omitted (default
    [5]) and the returned promise settles. *)
Definition getRelatedPosts_call (now : Z) (allPosts : list Post)
           (currentPost : Post) (maxCount : option Z)
  : Settled (list PostForList) :=
  Fulfilled (getRelatedPosts now allPosts currentPost (default 5%Z maxCount)).

End RelatedPosts.

(** ** Worked data

    An ASCII stand-in for the host functions, and the records of the
    scenarios used to exercise the definitions. *)

Definition ascii_lower (c : Ascii.ascii) : Ascii.ascii :=
  let n := Ascii.nat_of_ascii c in
  if (65 <=? n)%nat && (n <=? 90)%nat then Ascii.ascii_of_nat (n + 32) else c.

Fixpoint ascii_toLowerCase (s : string) : string :=
  match s with
  | EmptyString => EmptyString
  | String c s' => String (ascii_lower c) (ascii_toLowerCase s')
  end.

Definition flush_word (word : string) : list (string * bool) :=
  match word with
  | EmptyString => []
  | _ => [(word, true)]
  end.

(** Words are the maximal runs without a space; a space is a segment that
    is not word-like. *)
Fixpoint split_spaces (word s : string) : list (string * bool) :=
  match s with
  | EmptyString => flush_word word
  | String c s' =>
      if Ascii.eqb c (Ascii.ascii_of_nat 32)
      then flush_word word ++ (" ", false) :: split_spaces "" s'
      else split_spaces (word +:+ String c "") s'
  end.

Definition ascii_segment (s : string) : list (string * bool) :=
  split_spaces "" s.

Definition day_ms : Z := 1000 * 60 * 60 * 24.

(** The reference record; the scenarios run at [now = 0]. *)
Definition sample_reference : Post :=
  mkPost "ref"
    (mkPostData "Building a Cache" (Some ["go"; "rust"]) (Some "systems") 0 None).

(** Shares the tag ["go"] and the category; unrelated title; 30 days old. *)
Definition sample_x : Post :=
  mkPost "x"
    (mkPostData "Queues" (Some ["go"]) (Some "systems") (- 30 * day_ms) None).

(** Tag and category differ from the reference in letter case only; the
    title has the same words; one day old. *)
Definition sample_y : Post :=
  mkPost "y"
    (mkPostData "building a cache" (Some ["Go"]) (Some "Systems")
                (- 1 * day_ms) None).

(** Password protected, otherwise a copy of the reference. *)
Definition sample_locked : Post :=
  mkPost "locked"
    (mkPostData "Building a Cache" (Some ["go"; "rust"]) (Some "systems") 0
                (Some "secret")).

(** Published 10 days after [now]; no tags, no category. *)
Definition sample_future : Post :=
  mkPost "future"
    (mkPostData "Notes" None None (10 * day_ms) None).

Definition sample_corpus : list Post :=
  [sample_reference; sample_y; sample_locked; sample_x; sample_future].

(** The scorer and the selector on the worked data, at [now = 0]. *)
Abbreviation sample_score :=
  (scoreCandidate ascii_segment ascii_toLowerCase 0 sample_reference).

Abbreviation sample_related :=
  (getRelatedPosts ascii_segment ascii_toLowerCase 0 sample_corpus sample_reference).

(** Closed decidable goals, by evaluation. *)
Ltac by_compute := apply (bool_decide_unpack _); vm_compute; exact I.

(** ** Post listings: [getRawSortedPosts], [getSortedPosts],
       [getSortedPostsList] and the calendar endpoint *)

(** A collection entry with the further members of [data] that the listing
    functions read or write; [pinned] is the truthiness of [data.pinned]. *)
Record Entry : Type := mkEntry {
  entry_post : Post;
  pinned : bool;
  description : option string;
  nextSlug : option string;
  nextTitle : option string;
  prevSlug : option string;
  prevTitle : option string
}.

(** The comparator of [getRawSortedPosts]: pinned entries first, then the
    later [published] first.  It answers [1] for two entries with the same
    pinned state and the same date, in either order. *)
Definition byPinnedThenDate (a b : Entry) : R :=
  if pinned a && negb (pinned b) then (-1)%R
  else if negb (pinned a) && pinned b then 1%R
  else if (published (post_data (entry_post b))
           <? published (post_data (entry_post a)))%Z
       then (-1)%R else 1%R.

Definition getRawSortedPosts (allBlogPosts : list Entry) : list Entry :=
  array_sort byPinnedThenDate allBlogPosts.

(** [e.data.nextSlug = slug; e.data.nextTitle = t]. *)
Definition set_next (e : Entry) (slug t : string) : Entry :=
  mkEntry (entry_post e) (pinned e) (description e)
          (Some slug) (Some t) (prevSlug e) (prevTitle e).

(** [e.data.prevSlug = slug; e.data.prevTitle = t]. *)
Definition set_prev (e : Entry) (slug t : string) : Entry :=
  mkEntry (entry_post e) (pinned e) (description e)
          (nextSlug e) (nextTitle e) (Some slug) (Some t).

(** Body of the first loop of [getSortedPosts], at index [i]. *)
Definition link_next (sorted : list Entry) (i : nat) : list Entry :=
  match sorted !! i, sorted !! (i - 1)%nat with
  | Some cur, Some before =>
      <[ i := set_next cur (post_id (entry_post before))
                       (title (post_data (entry_post before))) ]> sorted
  | _, _ => sorted
  end.

(** Body of the second loop of [getSortedPosts], at index [i]. *)
Definition link_prev (sorted : list Entry) (i : nat) : list Entry :=
  match sorted !! i, sorted !! (i + 1)%nat with
  | Some cur, Some after =>
      <[ i := set_prev cur (post_id (entry_post after))
                       (title (post_data (entry_post after))) ]> sorted
  | _, _ => sorted
  end.

(** The common shape of the two loop bodies: entry [i] is rewritten from
    itself and from the entry at [other i]. *)
Definition link_with (upd : Entry -> Entry -> Entry) (other : nat -> nat)
           (sorted : list Entry) (i : nat) : list Entry :=
  match sorted !! i, sorted !! other i with
  | Some cur, Some o => <[ i := upd cur o ]> sorted
  | _, _ => sorted
  end.


Definition getSortedPosts (allBlogPosts : list Entry) : list Entry :=
  let sorted := getRawSortedPosts allBlogPosts in
  let sorted := foldl link_next sorted (seq 1 (length sorted - 1)) in
  foldl link_prev sorted (seq 0 (length sorted - 1)).

Definition getSortedPostsList (allBlogPosts : list Entry) : list PostForList :=
  (fun e => mkPostForList (post_id (entry_post e)) (post_data (entry_post e)))
    <$> getRawSortedPosts allBlogPosts.

(** One item of the calendar endpoint's [allPostsData]. *)
Record CalendarItem : Type := mkCalendarItem {
  cal_id : string;
  cal_title : string;
  cal_description : option string;
  cal_published : Z;
  cal_category : string;
  cal_password : bool
}.

Definition calendarItem (e : Entry) : CalendarItem :=
  mkCalendarItem (post_id (entry_post e))
                 (title (post_data (entry_post e)))
                 (description e)
                 (published (post_data (entry_post e)))
                 (or_empty (category (post_data (entry_post e))))
                 (truthy_opt (password (post_data (entry_post e)))).

(** [(a, b) => b.published - a.published]. *)
Definition byPublished (a b : CalendarItem) : R :=
  IZR (cal_published b - cal_published a).

(** [allPostsData] of the calendar endpoint, from the collection. *)
Definition calendarData (allBlogPosts : list Entry) : list CalendarItem :=
  array_sort byPublished (calendarItem <$> getSortedPosts allBlogPosts).

(** ** Tag and category lists *)

Record Tag : Type := mkTag {
  tag_name : string;
  tag_count : nat
}.

Record Category : Type := mkCategory {
  cat_name : string;
  cat_count : nat;
  cat_url : string
}.

(** Names that every object literal inherits from [Object.prototype].
    The count objects below are finite maps; that is the behaviour of the
    object literal for every key outside this list. *)
Definition Object_prototype_names : list string :=
  [ "constructor"; "hasOwnProperty"; "isPrototypeOf"; "propertyIsEnumerable";
    "toLocaleString"; "toString"; "valueOf"; "__proto__";
    "__defineGetter__"; "__defineSetter__"; "__lookupGetter__";
    "__lookupSetter__" ].

(** [if (!countMap[tag]) countMap[tag] = 0; countMap[tag]++]. *)
Definition countTag (countMap : gmap string nat) (tag : string) : gmap string nat :=
  let countMap :=
    match countMap !! tag with
    | Some (S _) => countMap
    | _ => <[ tag := 0%nat ]> countMap
    end in
  <[ tag := S (default 0%nat (countMap !! tag)) ]> countMap.

(** The two nested [forEach] of [getTagList]; [None] when [post.data.tags]
    is [undefined] for some post, where [forEach] cannot be read. *)
Definition countTags (allBlogPosts : list Post) : option (gmap string nat) :=
  foldl (fun acc p =>
           match acc, tags (post_data p) with
           | Some countMap, Some ts => Some (foldl countTag countMap ts)
           | _, _ => None
           end)
        (Some ∅) allBlogPosts.

(** [count[k] = count[k] ? count[k] + 1 : 1]. *)
Definition countCategory (count : gmap string nat) (k : string) : gmap string nat :=
  <[ k := match count !! k with
          | Some (S n) => S (S n)
          | _ => 1%nat
          end ]> count.

Section Lists.

Variable toLowerCase : string -> string.

(** [String.prototype.localeCompare]: negative, zero or positive. *)
Variable localeCompare : string -> string -> R.

(** [Object.keys]: the keys of the object in the engine's property order. *)
Variable Object_keys : gmap string nat -> list string.

(** [String.prototype.trim]. *)
Variable trim : string -> string.

(** [i18n(I18nKey.uncategorized)]. *)
Variable uncategorized : string.

Variable getCategoryUrl : string -> string.

(** [(a, b) => a.toLowerCase().localeCompare(b.toLowerCase())]. *)
Definition byLowerCase (a b : string) : R :=
  localeCompare (toLowerCase a) (toLowerCase b).

Definition getTagList (allBlogPosts : list Post) : Settled (list Tag) :=
  match countTags allBlogPosts with
  | None => Rejected "TypeError"
  | Some countMap =>
      let keys := array_sort byLowerCase (Object_keys countMap) in
      Fulfilled ((fun key => mkTag key (default 0%nat (countMap !! key))) <$> keys)
  end.

(** The key under which one post is counted by [getCategoryList]. *)
Definition categoryKey (p : Post) : string :=
  match category (post_data p) with
  | Some c => if truthy c then trim c else uncategorized
  | None => uncategorized
  end.

Definition countCategories (allBlogPosts : list Post) : gmap string nat :=
  foldl (fun count p => countCategory count (categoryKey p)) ∅ allBlogPosts.

(** [(a, b) => count[b] - count[a]
               || a.toLowerCase().localeCompare(b.toLowerCase())]. *)
Definition byCountThenLowerCase (count : gmap string nat) (a b : string) : R :=
  let d := IZR (Z.of_nat (default 0%nat (count !! b))
                - Z.of_nat (default 0%nat (count !! a))) in
  if decide (d = 0%R) then byLowerCase a b else d.

Definition getCategoryList (allBlogPosts : list Post) : list Category :=
  let count := countCategories allBlogPosts in
  let lst := array_sort (byCountThenLowerCase count) (Object_keys count) in
  (fun c => mkCategory c (default 0%nat (count !! c)) (getCategoryUrl c)) <$> lst.

End Lists.

(** ** Friend links *)

Record FriendLink : Type := mkFriendLink {
  friend_title : string;
  friend_imgurl : string;
  friend_desc : string;
  friend_siteurl : string;
  friend_tags : list string;
  friend_weight : Z;
  friend_enabled : bool
}.

(** [(a, b) => b.weight - a.weight]. *)
Definition byWeight (a b : FriendLink) : R :=
  IZR (friend_weight b - friend_weight a).

(** [getEnabledFriends], as a function of the configured list. *)
Definition getEnabledFriendsOf (friendsConfig : list FriendLink) : list FriendLink :=
  array_sort byWeight (filter (fun friend => friend_enabled friend = true) friendsConfig).

(** ** Diagram rendering: the retry loop of one element *)

(** What the element shows: its initial content, the loading box, the
    rendered diagram or the error box. *)
Inductive ElementHTML : Type :=
| InitialHTML
| LoadingHTML
| SvgHTML (svg : string)
| ErrorHTML.

(** The element together with what the loop has asked of its
    environment: the number of [mermaid.render] calls and the delays, in
    milliseconds, of the timeouts it has awaited. *)
Record RenderState : Type := mkRenderState {
  innerHTML : ElementHTML;
  renderCalls : nat;
  timeouts : list Z
}.

Definition maxAttempts : nat := 3.

(** The [while (attempts < maxAttempts)] loop.  [code] is the
    [data-mermaid-code] attribute; [render k] is the outcome of the call
    made when [attempts = k], [None] when it throws.  [fuel] bounds the
    number of iterations. *)
Fixpoint render_loop (fuel : nat) (code : option string)
         (render : nat -> option string) (attempts : nat) (st : RenderState)
  : RenderState :=
  match fuel with
  | O => st
  | S fuel' =>
      if decide (attempts < maxAttempts)%nat then
        if truthy_opt code then
          match render attempts with
          | Some svg =>
              mkRenderState (SvgHTML svg) (S (renderCalls st)) (timeouts st)
          | None =>
              let attempts := S attempts in
              if decide (maxAttempts <= attempts)%nat then
                render_loop fuel' code render attempts
                  (mkRenderState ErrorHTML (S (renderCalls st)) (timeouts st))
              else
                render_loop fuel' code render attempts
                  (mkRenderState LoadingHTML (S (renderCalls st))
                     (timeouts st ++ [500 * Z.of_nat attempts]%Z))
          end
        else st
      else st
  end.

(** The body of the [map] callback for one element, from [attempts = 0]. *)
Definition renderElement (code : option string) (render : nat -> option string)
  : RenderState :=
  render_loop maxAttempts code render 0 (mkRenderState InitialHTML 0 []).

(** ** Worked data for the listings *)

(** Stand-ins for the host functions of the list builders: keys in the
    order of the finite map, a total order on strings for [localeCompare],
    and no trimming (the sample categories have no surrounding space). *)
Definition sample_Object_keys (m : gmap string nat) : list string :=
  elements (dom m).

Definition sample_localeCompare (a b : string) : R :=
  IZR (Z.pos (encode a) - Z.pos (encode b)).

Definition sample_trim (s : string) : string := s.

Definition sample_getCategoryUrl (c : string) : string :=
  "/archive/?category=" +:+ c.

Definition sample_posts : list Post :=
  [sample_reference; sample_y; sample_x].

(** A pinned old entry and two unpinned ones. *)
Definition sample_entries : list Entry :=
  [ mkEntry sample_x false None None None None None;
    mkEntry sample_reference true (Some "about caches") None None None None;
    mkEntry sample_y false None None None None None ].

(** * Properties *)

(** ** Set arithmetic behind [jaccardSimilarity] *)

Lemma foldl_count_filter (b : gset string) (l : list string) (n : nat) :
  foldl (fun n item => if decide (item ∈ b) then S n else n) n l
  = (n + length (filter (fun item => item ∈ b) l))%nat.
Proof.
  revert n. induction l as [|x l IH]; intros n; simpl.
  - lia.
  - rewrite IH, filter_cons. destruct (decide (x ∈ b)); simpl; lia.
Qed.

Lemma intersection_count_size (a b : gset string) :
  intersection_count a b = size (a ∩ b).
Proof.
  unfold intersection_count. rewrite foldl_count_filter. simpl.
  unfold size, set_size. simpl.
  apply Permutation_length, NoDup_Permutation.
  - apply NoDup_filter, NoDup_elements.
  - apply NoDup_elements.
  - intros x. rewrite list_elem_of_filter, !elem_of_elements. set_solver.
Qed.

Lemma size_union_intersection (a b : gset string) :
  (size (a ∪ b) + size (a ∩ b) = size a + size b)%nat.
Proof.
  rewrite size_union_alt.
  assert (Hb : size b = (size (b ∖ a) + size (a ∩ b))%nat).
  { rewrite <- size_union by set_solver.
    f_equal. apply set_eq. intros x.
    destruct (decide (x ∈ a)); set_solver. }
  lia.
Qed.

Lemma jaccard_union_size (a b : gset string) :
  jaccard_union a b = Z.of_nat (size (a ∪ b)).
Proof.
  unfold jaccard_union. rewrite intersection_count_size.
  pose proof (size_union_intersection a b). lia.
Qed.

Lemma jaccard_union_pos (a b : gset string) :
  ¬ (size a = 0%nat ∧ size b = 0%nat) -> (0 < jaccard_union a b)%Z.
Proof.
  intros Hne. rewrite jaccard_union_size.
  assert (size a ≤ size (a ∪ b))%nat by (apply subseteq_size; set_solver).
  assert (size b ≤ size (a ∪ b))%nat by (apply subseteq_size; set_solver).
  lia.
Qed.

Lemma jaccardSimilarity_quotient (a b : gset string) :
  ¬ (size a = 0%nat ∧ size b = 0%nat) ->
  jaccardSimilarity a b = (INR (size (a ∩ b)) / INR (size (a ∪ b)))%R.
Proof.
  intros Hne. unfold jaccardSimilarity.
  destruct (decide (size a = 0%nat ∧ size b = 0%nat)) as [|_]; [tauto|].
  pose proof (jaccard_union_pos a b Hne) as Hpos.
  destruct (decide (jaccard_union a b = 0%Z)) as [Hz|_]; [lia|].
  rewrite intersection_count_size, jaccard_union_size, <- INR_IZR_INZ.
  reflexivity.
Qed.

Lemma jaccardSimilarity_range (a b : gset string) :
  (0 <= jaccardSimilarity a b <= 1)%R.
Proof.
  destruct (decide (size a = 0%nat ∧ size b = 0%nat)) as [He|Hne].
  - unfold jaccardSimilarity.
    destruct (decide (size a = 0%nat ∧ size b = 0%nat)); [lra|tauto].
  - rewrite jaccardSimilarity_quotient by assumption.
    pose proof (jaccard_union_pos a b Hne) as Hpos.
    rewrite jaccard_union_size in Hpos.
    assert (Hu : (0 < INR (size (a ∪ b)))%R) by (apply lt_0_INR; lia).
    assert (Hi : (0 <= INR (size (a ∩ b)))%R) by apply pos_INR.
    assert (Hle : (INR (size (a ∩ b)) <= INR (size (a ∪ b)))%R).
    { apply le_INR, subseteq_size. set_solver. }
    assert (Hinv : (0 < / INR (size (a ∪ b)))%R)
      by (apply Rinv_0_lt_compat; assumption).
    assert (Hone : (INR (size (a ∪ b)) * / INR (size (a ∪ b)) = 1)%R)
      by (apply Rinv_r; lra).
    unfold Rdiv. split; nra.
Qed.

(** ** [array_sort]: permutation, order and stability *)

Section SortFacts.

Context {A : Type}.
Variable cmp : A -> A -> R.

Lemma sort_insert_perm (x : A) (l : list A) : sort_insert cmp x l ≡ₚ x :: l.
Proof.
  induction l as [|y l IH]; simpl; [reflexivity|].
  destruct (decide (cmp x y <= 0)%R); [reflexivity|].
  rewrite IH. apply Permutation_swap.
Qed.

Lemma array_sort_perm (l : list A) : array_sort cmp l ≡ₚ l.
Proof.
  induction l as [|x l IH]; simpl; [reflexivity|].
  fold (array_sort cmp l). rewrite sort_insert_perm, IH. reflexivity.
Qed.

Lemma array_sort_length (l : list A) : length (array_sort cmp l) = length l.
Proof. apply Permutation_length, array_sort_perm. Qed.

Lemma array_sort_elem_of (x : A) (l : list A) : x ∈ array_sort cmp l ↔ x ∈ l.
Proof. rewrite array_sort_perm. reflexivity. Qed.

(** Stability, in filter form: a class of elements that the comparator
    never asks to exchange keeps its order. *)
Section Stable.

Variable P : A -> Prop.
Context `{!∀ x, Decision (P x)}.
Hypothesis P_tied : ∀ x y, P x -> P y -> (cmp x y <= 0)%R.

Lemma filter_sort_insert (x : A) (l : list A) :
  filter P (sort_insert cmp x l) = filter P (x :: l).
Proof.
  induction l as [|y l IH]; simpl; [reflexivity|].
  destruct (decide (cmp x y <= 0)%R) as [Hle|Hgt]; [reflexivity|].
  rewrite (filter_cons _ y), IH, !filter_cons.
  destruct (decide (P y)) as [Hy|Hy], (decide (P x)) as [Hx|Hx];
    try reflexivity.
  exfalso. apply Hgt. apply P_tied; assumption.
Qed.

Lemma filter_array_sort (l : list A) :
  filter P (array_sort cmp l) = filter P l.
Proof.
  induction l as [|x l IH]; simpl; [reflexivity|].
  fold (array_sort cmp l).
  rewrite filter_sort_insert, !filter_cons, IH. reflexivity.
Qed.

End Stable.

(** Order, for a comparator of the shape [key b - key a]. *)
Section Descending.

Variable key : A -> R.
Hypothesis cmp_key : ∀ a b, cmp a b = (key b - key a)%R.

Lemma sort_insert_descending (x : A) (l : list A) :
  descending key l -> descending key (sort_insert cmp x l).
Proof.
  unfold descending.
  induction l as [|y l IH]; intros Hs; simpl.
  - apply StronglySorted_cons. split; [apply Forall_nil_2 | constructor].
  - apply StronglySorted_cons in Hs as [Hy Hl].
    destruct (decide (cmp x y <= 0)%R) as [Hle|Hgt];
      rewrite cmp_key in *.
    + apply StronglySorted_cons. split.
      * apply Forall_cons. split; [lra|].
        eapply Forall_impl; [exact Hy|]. simpl. intros z Hz. lra.
      * apply StronglySorted_cons. split; assumption.
    + apply StronglySorted_cons. split; [|apply IH; assumption].
      rewrite sort_insert_perm. apply Forall_cons. split; [lra|assumption].
Qed.

Lemma array_sort_descending (l : list A) : descending key (array_sort cmp l).
Proof.
  induction l as [|x l IH]; simpl; [constructor|].
  apply sort_insert_descending, IH.
Qed.

Lemma descending_filter (P : A -> Prop) `{!∀ x, Decision (P x)} (l : list A) :
  descending key l -> descending key (filter P l).
Proof.
  unfold descending.
  induction l as [|x l IH]; intros Hs; [constructor|].
  apply StronglySorted_cons in Hs as [Hx Hl].
  rewrite filter_cons. destruct (decide (P x)); [|apply IH; assumption].
  apply StronglySorted_cons. split; [|apply IH; assumption].
  apply Forall_forall. intros z Hz.
  apply list_elem_of_filter in Hz as [_ Hz].
  rewrite Forall_forall in Hx. apply Hx, Hz.
Qed.

Lemma descending_take (n : nat) (l : list A) :
  descending key l -> descending key (take n l).
Proof.
  unfold descending. intros Hs.
  rewrite <- (take_drop n l) in Hs.
  apply StronglySorted_app in Hs. tauto.
Qed.

End Descending.

End SortFacts.

(** ** The bounded push loop *)

Lemma push_loop_take (maxCount : Z) (result : list PostForList) (l : list Scored) :
  push_loop maxCount result l
  = result ++ take (Z.to_nat (maxCount - Z.of_nat (length result))) (project <$> l).
Proof.
  revert result. induction l as [|s l IH]; intros result; simpl.
  - rewrite take_nil, app_nil_r. reflexivity.
  - destruct (decide (Z.of_nat (length result) >= maxCount)%Z) as [Hge|Hlt].
    + replace (Z.to_nat (maxCount - Z.of_nat (length result))) with 0%nat by lia.
      simpl. rewrite app_nil_r. reflexivity.
    + rewrite IH, length_app. simpl.
      replace (Z.to_nat (maxCount - Z.of_nat (length result)))
        with (S (Z.to_nat (maxCount - Z.of_nat (length result + 1)))) by lia.
      simpl. rewrite <- app_assoc. reflexivity.
Qed.

(** ** The selection pipeline *)

Section RelatedPostsFacts.

Variable segment : string -> list (string * bool).
Variable toLowerCase : string -> string.

Abbreviation scored' := (scored segment toLowerCase).
Abbreviation sortedScored' := (sortedScored segment toLowerCase).
Abbreviation getRelatedPosts' := (getRelatedPosts segment toLowerCase).
Abbreviation scoreCandidate' := (scoreCandidate segment toLowerCase).
Abbreviation fallbackTier' := (fallbackTier segment toLowerCase).

Lemma tagMatchScoreOf_nonneg (currentPost p : Post) :
  (0 <= tagMatchScoreOf currentPost p)%R.
Proof.
  unfold tagMatchScoreOf.
  pose proof (jaccardSimilarity_range (tagsOf currentPost) (tagsOf p)). lra.
Qed.

Lemma scored_tag_nonneg now allPosts currentPost :
  Forall (fun s => (0 <= tagMatchScore s)%R) (scored' now allPosts currentPost).
Proof.
  unfold scored. apply Forall_fmap, Forall_forall. intros p _. simpl.
  apply tagMatchScoreOf_nonneg.
Qed.

Lemma tiers_partition (l : list Scored) :
  Forall (fun s => (0 <= tagMatchScore s)%R) l ->
  withTagMatch l ++ withoutTagMatch l ≡ₚ l.
Proof.
  unfold withTagMatch, withoutTagMatch.
  induction 1 as [|s l Hs _ IH]; [reflexivity|].
  rewrite !filter_cons.
  destruct (decide (0 < tagMatchScore s)%R) as [Hpos|Hnpos],
           (decide (tagMatchScore s = 0%R)) as [Hz|Hnz]; try lra.
  - simpl. rewrite IH. reflexivity.
  - rewrite <- Permutation_middle, IH. reflexivity.
Qed.

Lemma getRelatedPosts_take now allPosts currentPost maxCount :
  getRelatedPosts' now allPosts currentPost maxCount
  = take (Z.to_nat maxCount)
         (project <$> (withTagMatch (sortedScored' now allPosts currentPost)
                       ++ fallbackTier' now allPosts currentPost)).
Proof.
  unfold getRelatedPosts, fallbackTier.
  set (T := withTagMatch _). set (N := array_sort _ _).
  rewrite !push_loop_take. simpl. rewrite Z.sub_0_r.
  rewrite fmap_app, take_app, length_fmap.
  destruct (decide _) as [Hlt|Hge].
  - rewrite length_take, length_fmap in *.
    f_equal. f_equal. lia.
  - rewrite length_take, length_fmap in Hge.
    replace (Z.to_nat maxCount - length T)%nat with 0%nat by lia.
    rewrite take_0, app_nil_r. reflexivity.
Qed.

Lemma tiers_perm now allPosts currentPost :
  withTagMatch (sortedScored' now allPosts currentPost)
  ++ fallbackTier' now allPosts currentPost
  ≡ₚ scored' now allPosts currentPost.
Proof.
  unfold fallbackTier. rewrite array_sort_perm, tiers_partition.
  - apply array_sort_perm.
  - unfold sortedScored. rewrite array_sort_perm. apply scored_tag_nonneg.
Qed.

Lemma getRelatedPosts_elem_of now allPosts currentPost maxCount r :
  r ∈ getRelatedPosts' now allPosts currentPost maxCount ->
  ∃ p, p ∈ candidates allPosts currentPost
       ∧ r = mkPostForList (post_id p) (post_data p).
Proof.
  rewrite getRelatedPosts_take. intros Hr.
  apply subseteq_take in Hr. rewrite tiers_perm in Hr.
  unfold scored in Hr. rewrite <- list_fmap_compose in Hr.
  apply list_elem_of_fmap in Hr as (p & -> & Hp).
  exists p. split; [assumption|reflexivity].
Qed.

(** C1. The output never contains the reference record nor a restricted
    record: every output entry is the projection of a corpus record whose
    id differs from the reference id and whose password is falsy; the
    scored list already consists of such records only (the filter runs
    before the scoring); and, ids being unique in the corpus, the id of a
    restricted corpus record never occurs among the output ids. *)
Theorem getRelatedPosts_exclusions now allPosts currentPost maxCount :
  (∀ r, r ∈ getRelatedPosts' now allPosts currentPost maxCount ->
        pfl_id r ≠ post_id currentPost
        ∧ truthy_opt (password (pfl_data r)) = false
        ∧ ∃ p, p ∈ allPosts ∧ r = mkPostForList (post_id p) (post_data p))
  ∧ (∀ s, s ∈ scored' now allPosts currentPost ->
          post_id (post s) ≠ post_id currentPost
          ∧ truthy_opt (password (post_data (post s))) = false)
  ∧ (NoDup (post_id <$> allPosts) ->
     ∀ p, p ∈ allPosts -> truthy_opt (password (post_data p)) = true ->
          post_id p ∉ pfl_id <$> getRelatedPosts' now allPosts currentPost maxCount).
Proof.
  split; [|split].
  - intros r Hr.
    apply getRelatedPosts_elem_of in Hr as (p & Hp & ->).
    apply list_elem_of_filter in Hp as [[Hid Hpw] Hin]. simpl.
    split; [assumption|]. split; [assumption|]. eauto.
  - intros s Hs. unfold scored in Hs.
    apply list_elem_of_fmap in Hs as (p & -> & Hp).
    apply list_elem_of_filter in Hp as [[Hid Hpw] _]. simpl. tauto.
  - intros Hnd p Hp Hpw Hin.
    apply list_elem_of_fmap in Hin as (r & Hid & Hr).
    apply getRelatedPosts_elem_of in Hr as (q & Hq & ->). simpl in Hid.
    apply list_elem_of_filter in Hq as [[_ Hqpw] Hq].
    assert (p = q) as ->; [|congruence].
    apply list_elem_of_lookup in Hp as [i Hi].
    apply list_elem_of_lookup in Hq as [j Hj].
    assert (i = j) as ->.
    { eapply NoDup_lookup; [exact Hnd| |];
        rewrite list_lookup_fmap; [rewrite Hi|rewrite Hj]; simpl;
        [reflexivity|congruence]. }
    congruence.
Qed.

(** C3. For a non-negative [maxCount] the output has exactly
    [min maxCount (number of eligible candidates)] entries; it never has
    more than [maxCount]; with at most [maxCount] eligible candidates the
    output is a rearrangement of all of them, nothing added; and an
    empty corpus gives an empty output. *)
Theorem getRelatedPosts_length now allPosts currentPost maxCount :
  (0 <= maxCount)%Z ->
  Z.of_nat (length (getRelatedPosts' now allPosts currentPost maxCount))
  = Z.min maxCount (Z.of_nat (length (candidates allPosts currentPost)))
  ∧ (Z.of_nat (length (getRelatedPosts' now allPosts currentPost maxCount))
     <= maxCount)%Z
  ∧ ((Z.of_nat (length (candidates allPosts currentPost)) <= maxCount)%Z ->
     getRelatedPosts' now allPosts currentPost maxCount
     ≡ₚ (fun p => mkPostForList (post_id p) (post_data p))
        <$> candidates allPosts currentPost)
  ∧ getRelatedPosts' now [] currentPost maxCount = [].
Proof.
  intros Hm.
  assert (Hlen : length (withTagMatch (sortedScored' now allPosts currentPost)
                         ++ fallbackTier' now allPosts currentPost)
                 = length (candidates allPosts currentPost)).
  { rewrite tiers_perm. unfold scored. apply length_fmap. }
  rewrite !getRelatedPosts_take, length_take, length_fmap, Hlen.
  split; [lia|]. split; [lia|]. split.
  - intros Hfew. rewrite take_ge by (rewrite length_fmap; lia).
    rewrite tiers_perm. unfold scored. rewrite <- list_fmap_compose.
    reflexivity.
  - simpl. apply take_nil.
Qed.

Lemma filter_fmap_comm {A B : Type} (f : A -> B) (P : B -> Prop)
      `{!∀ y, Decision (P y)} (l : list A) :
  filter P (f <$> l) = f <$> filter (fun x => P (f x)) l.
Proof.
  induction l as [|x l IH]; [reflexivity|].
  rewrite fmap_cons, !filter_cons, IH.
  destruct (decide (P (f x))); reflexivity.
Qed.

Lemma filter_comm {A : Type} (P Q : A -> Prop)
      `{!∀ x, Decision (P x), !∀ x, Decision (Q x)} (l : list A) :
  filter P (filter Q l) = filter Q (filter P l).
Proof.
  rewrite !list_filter_filter. apply list_filter_iff. intros x. tauto.
Qed.

Lemma post_scoreCandidate now currentPost (l : list Post) :
  post <$> (scoreCandidate' now currentPost <$> l) = l.
Proof.
  induction l as [|p l IH]; [reflexivity|].
  rewrite !fmap_cons, IH. reflexivity.
Qed.

Lemma sortedScored_descending now allPosts currentPost :
  descending totalScore (sortedScored' now allPosts currentPost).
Proof.
  apply (array_sort_descending byTotalScore totalScore). reflexivity.
Qed.

Lemma fallbackTier_descending now allPosts currentPost :
  descending (fun s => (timeFreshnessScore s + categoryBonus s)%R)
             (fallbackTier' now allPosts currentPost).
Proof.
  apply (array_sort_descending byFreshnessAndCategory
           (fun s => (timeFreshnessScore s + categoryBonus s)%R)).
  reflexivity.
Qed.

(** C2. The output is assembled in two tiers.  With [T] the tag-matched
    candidates in total-score-descending order and [N] the candidates
    without tag match re-sorted by freshness plus category bonus, the
    output is the first [maxCount] entries of [T] followed, only when
    [T] has fewer than [maxCount] entries, by the leading entries of [N]
    that fill the remaining places.  Total scores of [N] play no part. *)
Theorem getRelatedPosts_two_tier now allPosts currentPost maxCount :
  let T := withTagMatch (sortedScored' now allPosts currentPost) in
  let N := fallbackTier' now allPosts currentPost in
  getRelatedPosts' now allPosts currentPost maxCount
  = project <$> (take (Z.to_nat maxCount) T
                 ++ take (Z.to_nat maxCount - length T) N)
  ∧ T ++ N ≡ₚ scored' now allPosts currentPost
  ∧ descending totalScore T
  ∧ Forall (fun s => (0 < tagMatchScore s)%R) T
  ∧ descending (fun s => (timeFreshnessScore s + categoryBonus s)%R) N
  ∧ Forall (fun s => tagMatchScore s = 0%R) N
  ∧ ((maxCount <= Z.of_nat (length T))%Z ->
     getRelatedPosts' now allPosts currentPost maxCount
     = project <$> take (Z.to_nat maxCount) T)
  ∧ ((Z.of_nat (length T) < maxCount)%Z ->
     getRelatedPosts' now allPosts currentPost maxCount
     = project <$> (T ++ take (Z.to_nat maxCount - length T) N)).
Proof.
  intros T N.
  assert (Hout : getRelatedPosts' now allPosts currentPost maxCount
                 = project <$> (take (Z.to_nat maxCount) T
                                ++ take (Z.to_nat maxCount - length T) N)).
  { rewrite getRelatedPosts_take, <- fmap_take, take_app. reflexivity. }
  split; [exact Hout|].
  split; [apply tiers_perm|].
  split; [apply descending_filter, sortedScored_descending|].
  split.
  { apply Forall_forall. intros s Hs.
    apply list_elem_of_filter in Hs. tauto. }
  split; [apply fallbackTier_descending|].
  split.
  { apply Forall_forall. intros s Hs. unfold N, fallbackTier in Hs.
    rewrite array_sort_elem_of in Hs.
    apply list_elem_of_filter in Hs. tauto. }
  split.
  - intros Hfull. rewrite Hout.
    replace (Z.to_nat maxCount - length T)%nat with 0%nat by lia.
    rewrite take_0, app_nil_r. reflexivity.
  - intros Hshort. rewrite Hout.
    rewrite (take_ge T) by lia. reflexivity.
Qed.

(** C4. Sorting the scored list by total score is stable: the sorted
    list is a rearrangement of the scored list in non-increasing total
    score, and for every score value the candidates having exactly that
    total score appear in the sorted list in the order in which they
    appear in the corpus.  The same holds inside the tag-matched tier. *)
Theorem sortedScored_stable now allPosts currentPost :
  sortedScored' now allPosts currentPost ≡ₚ scored' now allPosts currentPost
  ∧ descending totalScore (sortedScored' now allPosts currentPost)
  ∧ (∀ v : R,
       post <$> filter (fun s => totalScore s = v)
                       (sortedScored' now allPosts currentPost)
       = filter (fun p => eligible currentPost p
                          ∧ totalScore (scoreCandidate' now currentPost p) = v)
                allPosts)
  ∧ (∀ v : R,
       filter (fun s => totalScore s = v)
              (withTagMatch (sortedScored' now allPosts currentPost))
       = filter (fun s => totalScore s = v)
                (withTagMatch (scored' now allPosts currentPost))).
Proof.
  assert (Hstable : ∀ v : R,
             filter (fun s => totalScore s = v)
                    (sortedScored' now allPosts currentPost)
             = filter (fun s => totalScore s = v)
                      (scored' now allPosts currentPost)).
  { intros v. unfold sortedScored. apply filter_array_sort.
    intros x y Hx Hy. unfold byTotalScore. lra. }
  split; [apply array_sort_perm|].
  split; [apply sortedScored_descending|].
  split.
  - intros v. rewrite Hstable. unfold scored, candidates.
    rewrite filter_fmap_comm, post_scoreCandidate, list_filter_filter.
    apply list_filter_iff. intros p. tauto.
  - intros v. unfold withTagMatch.
    rewrite !(filter_comm (fun s => totalScore s = v)), Hstable.
    reflexivity.
Qed.

End RelatedPostsFacts.

(** ** The scorer *)

Lemma ln_2_pos : (0 < ln 2)%R.
Proof. rewrite <- ln_1. apply ln_increasing; lra. Qed.

Lemma day_ms_pos : (0 < 1000 * 60 * 60 * 24)%R.
Proof. lra. Qed.

Lemma timeFreshnessScoreOf_pos now p : (0 < timeFreshnessScoreOf now p)%R.
Proof.
  unfold timeFreshnessScoreOf.
  apply Rmult_lt_0_compat; [lra|apply exp_pos].
Qed.

(** Sign of the exponent, from the sign of the elapsed time. *)
Lemma freshness_exponent_sign now p :
  ((now < published (post_data p))%Z ->
   (0 < - ln 2 * daysSincePublished now p / 180)%R)
  ∧ ((published (post_data p) < now)%Z ->
     (- ln 2 * daysSincePublished now p / 180 < 0)%R)
  ∧ ((published (post_data p) = now)%Z ->
     (- ln 2 * daysSincePublished now p / 180 = 0)%R).
Proof.
  unfold daysSincePublished.
  pose proof ln_2_pos as Hln.
  set (d := IZR (now - published (post_data p))).
  assert (Hd : (- ln 2 * (d / (1000 * 60 * 60 * 24)) / 180
                = - (ln 2 / (1000 * 60 * 60 * 24 * 180)) * d)%R) by (field; lra).
  rewrite Hd.
  assert (Hk : (0 < ln 2 / (1000 * 60 * 60 * 24 * 180))%R).
  { apply Rdiv_lt_0_compat; lra. }
  split; [|split]; intros Ht.
  - assert (d < 0)%R by (apply (IZR_lt _ 0); lia). nra.
  - assert (0 < d)%R by (apply (IZR_lt 0); lia). nra.
  - assert (d = 0)%R by (unfold d; rewrite Ht, Z.sub_diag; reflexivity). nra.
Qed.

Lemma timeFreshnessScoreOf_future now p :
  (now < published (post_data p))%Z -> (30 < timeFreshnessScoreOf now p)%R.
Proof.
  intros Ht. unfold timeFreshnessScoreOf.
  apply (proj1 (freshness_exponent_sign now p)) in Ht.
  apply exp_increasing in Ht. rewrite exp_0 in Ht. lra.
Qed.

Lemma timeFreshnessScoreOf_past now p :
  (published (post_data p) < now)%Z -> (timeFreshnessScoreOf now p < 30)%R.
Proof.
  intros Ht. unfold timeFreshnessScoreOf.
  apply (proj1 (proj2 (freshness_exponent_sign now p))) in Ht.
  apply exp_increasing in Ht. rewrite exp_0 in Ht. lra.
Qed.


(** One half-life (180 days) into the future doubles the score; anything
    nearer stays below 60. *)
Lemma timeFreshnessScoreOf_le_60 now p :
  (published (post_data p) - now <= 180 * (1000 * 60 * 60 * 24))%Z ->
  (timeFreshnessScoreOf now p <= 60)%R.
Proof.
  intros Ht. unfold timeFreshnessScoreOf, daysSincePublished.
  pose proof ln_2_pos as Hln.
  set (d := IZR (now - published (post_data p))).
  assert (Hd : (- (180 * (1000 * 60 * 60 * 24)) <= d)%R).
  { assert (IZR (-15552000000) <= d)%R by (apply IZR_le; lia). lra. }
  assert (Hx : (- ln 2 * (d / (1000 * 60 * 60 * 24)) / 180 <= ln 2)%R).
  { assert (He : (- ln 2 * (d / (1000 * 60 * 60 * 24)) / 180
                  = ln 2 * (- d / (180 * (1000 * 60 * 60 * 24))))%R)
      by (field; lra).
    rewrite He.
    assert (HK : (180 * (1000 * 60 * 60 * 24) * / (180 * (1000 * 60 * 60 * 24)) = 1)%R)
      by (apply Rinv_r; lra).
    assert (Hinv : (0 < / (180 * (1000 * 60 * 60 * 24)))%R)
      by (apply Rinv_0_lt_compat; lra).
    assert (H1 : (- d / (180 * (1000 * 60 * 60 * 24)) <= 1)%R).
    { unfold Rdiv. rewrite <- HK. apply Rmult_le_compat_r; lra. }
    nra. }
  assert (Hexp : (exp (- ln 2 * (d / (1000 * 60 * 60 * 24)) / 180) <= 2)%R).
  { rewrite <- (exp_ln 2) at 2 by lra.
    destruct Hx as [Hx|Hx]; [left; apply exp_increasing, Hx|right; f_equal; exact Hx]. }
  lra.
Qed.

Lemma jaccardSimilarity_zero_iff (a b : gset string) :
  jaccardSimilarity a b = 0%R ↔ a ∩ b = ∅.
Proof.
  destruct (decide (size a = 0%nat ∧ size b = 0%nat)) as [[Ha Hb]|Hne].
  - unfold jaccardSimilarity.
    destruct (decide (size a = 0%nat ∧ size b = 0%nat)); [|tauto].
    apply size_empty_inv in Ha. split; [intros _; set_solver|reflexivity].
  - rewrite jaccardSimilarity_quotient by assumption.
    pose proof (jaccard_union_pos a b Hne) as Hpos.
    rewrite jaccard_union_size in Hpos.
    assert (Hu : (0 < INR (size (a ∪ b)))%R) by (apply lt_0_INR; lia).
    split.
    + intros Hq.
      assert (Hi : INR (size (a ∩ b)) = 0%R).
      { apply (Rmult_eq_reg_r (/ INR (size (a ∪ b)))).
        - unfold Rdiv in Hq. lra.
        - apply Rinv_neq_0_compat. lra. }
      apply (INR_eq _ 0) in Hi. apply leibniz_equiv, size_empty_inv, Hi.
    + intros ->. rewrite size_empty. simpl. lra.
Qed.

Lemma tagMatchScoreOf_zero_iff (currentPost p : Post) :
  tagMatchScoreOf currentPost p = 0%R
  ↔ ∀ t, t ∈ or_nil (tags (post_data currentPost)) ->
         t ∉ or_nil (tags (post_data p)).
Proof.
  unfold tagMatchScoreOf.
  assert (H100 : ∀ x : R, (x * 100 = 0 ↔ x = 0)%R) by (intros x; lra).
  rewrite H100, jaccardSimilarity_zero_iff. unfold tagsOf.
  split.
  - intros He t Ht1 Ht2.
    assert (t ∈ (∅ : gset string)); [|set_solver].
    rewrite <- He. set_solver.
  - intros Hd. apply set_eq. intros t. split; [|set_solver].
    rewrite elem_of_intersection, !elem_of_list_to_set.
    intros [Ht1 Ht2]. exfalso. exact (Hd t Ht1 Ht2).
Qed.

Section ScorerFacts.

Variable segment : string -> list (string * bool).
Variable toLowerCase : string -> string.

Abbreviation tokenizeTitle' := (tokenizeTitle segment toLowerCase).
Abbreviation scoreCandidate'' := (scoreCandidate segment toLowerCase).
Abbreviation titleSimilarityScoreOf' :=
  (titleSimilarityScoreOf segment toLowerCase).

Lemma tokenize_fold_elem_of (items : list (string * bool)) (acc : gset string)
      (tok : string) :
  tok ∈ foldl (fun (tokens : gset string) (item : string * bool) =>
                 if snd item then tokens ∪ {[ toLowerCase (fst item) ]}
                 else tokens) acc items
  ↔ tok ∈ acc ∨ ∃ seg, (seg, true) ∈ items ∧ tok = toLowerCase seg.
Proof.
  revert acc. induction items as [|[seg w] items IH]; intros acc; simpl.
  - split; [tauto|]. intros [H|(seg & H & _)]; [exact H|].
    apply elem_of_nil in H. contradiction.
  - rewrite IH. destruct w; simpl.
    + rewrite elem_of_union, elem_of_singleton. split.
      * intros [[H| ->]|(s' & H & ->)];
          [tauto|right; exists seg; split; [left|reflexivity]
          |right; exists s'; split; [right; exact H|reflexivity]].
      * intros [H|(s' & H & ->)]; [tauto|].
        apply elem_of_cons in H as [H|H]; [|right; eauto].
        injection H as ->. left. right. reflexivity.
    + split.
      * intros [H|(s' & H & ->)]; [tauto|].
        right. exists s'. split; [right; exact H|reflexivity].
      * intros [H|(s' & H & ->)]; [tauto|].
        apply elem_of_cons in H as [H|H]; [discriminate H|right; eauto].
Qed.

Lemma tokenizeTitle_elem_of (t tok : string) :
  tok ∈ tokenizeTitle' t
  ↔ ∃ seg, (seg, true) ∈ segment t ∧ tok = toLowerCase seg.
Proof.
  unfold tokenizeTitle. rewrite tokenize_fold_elem_of.
  split; [intros [H|H]; [set_solver|exact H]|tauto].
Qed.

(** C5 (as amended). The scored candidate keeps the candidate, the
    total score and three of the four sub-scores: tag match, time
    freshness and category bonus.  The title similarity score enters the
    total and is not kept as a property of its own.  The same values are
    what the selector finds on every entry of the sorted list. *)
Theorem scoreCandidate_retains now currentPost p :
  let props (q : Post) :=
    [ ("totalScore",
       (tagMatchScoreOf currentPost q + titleSimilarityScoreOf' currentPost q
        + timeFreshnessScoreOf now q + categoryBonusOf currentPost q)%R);
      ("tagMatchScore", tagMatchScoreOf currentPost q);
      ("timeFreshnessScore", timeFreshnessScoreOf now q);
      ("categoryBonus", categoryBonusOf currentPost q) ] in
  let s := scoreCandidate'' now currentPost p in
  post s = p
  ∧ Scored_props s = props p
  ∧ ("titleSimilarityScore" ∉ (fst <$> Scored_props s))
  ∧ (∀ allPosts s',
       s' ∈ sortedScored segment toLowerCase now allPosts currentPost ->
       post s' ∈ candidates allPosts currentPost
       ∧ Scored_props s' = props (post s')).
Proof.
  intros props s. split; [reflexivity|]. split; [reflexivity|]. split.
  - unfold Scored_props. simpl. rewrite !not_elem_of_cons.
    repeat split; try discriminate. apply not_elem_of_nil.
  - intros allPosts s' Hs'. unfold sortedScored in Hs'.
    rewrite array_sort_elem_of in Hs'. unfold scored in Hs'.
    apply list_elem_of_fmap in Hs' as (q & -> & Hq).
    split; [exact Hq|reflexivity].
Qed.

(** C10. Tags are compared as raw strings.  The tag match score is zero
    exactly when no tag string of the reference is equal to a tag string
    of the candidate, whatever the letter case of the tags; such a
    candidate is not tag-matched.  Title tokens, by contrast, are the
    lower-cased word-like segments. *)
Theorem tagMatchScoreOf_case_sensitive now currentPost p :
  (tagMatchScoreOf currentPost p = 0%R
   ↔ ∀ t, t ∈ or_nil (tags (post_data currentPost)) ->
          t ∉ or_nil (tags (post_data p)))
  ∧ ((∀ t, t ∈ or_nil (tags (post_data currentPost)) ->
           t ∉ or_nil (tags (post_data p))) ->
     tagMatchScore (scoreCandidate'' now currentPost p) = 0%R
     ∧ withTagMatch [scoreCandidate'' now currentPost p] = []
     ∧ withoutTagMatch [scoreCandidate'' now currentPost p]
       = [scoreCandidate'' now currentPost p])
  ∧ (∀ t tok, tok ∈ tokenizeTitle' t
              ↔ ∃ seg, (seg, true) ∈ segment t ∧ tok = toLowerCase seg).
Proof.
  split; [apply tagMatchScoreOf_zero_iff|].
  split; [|apply tokenizeTitle_elem_of].
  intros Hd. apply tagMatchScoreOf_zero_iff in Hd.
  split; [exact Hd|].
  unfold withTagMatch, withoutTagMatch. rewrite !filter_cons, !filter_nil.
  simpl. rewrite Hd.
  destruct (decide (0 < 0)%R) as [Hlt|_]; [lra|].
  destruct (decide (0 = 0)%R) as [_|Hne]; [|lra].
  split; reflexivity.
Qed.

(** C9 (as amended). The call never fails: for every reference, corpus
    and [maxCount], negative ones included, the promise is fulfilled with
    a list.  A [maxCount] of zero or less gives the empty list, and so
    does an empty corpus. *)
Theorem getRelatedPosts_call_total now allPosts currentPost maxCount :
  ∃ l, getRelatedPosts_call segment toLowerCase now allPosts currentPost maxCount
       = Fulfilled l
       ∧ (∀ m, maxCount = Some m -> (m <= 0)%Z -> l = [])
       ∧ (allPosts = [] -> l = []).
Proof.
  eexists. split; [reflexivity|]. split.
  - intros m -> Hm. simpl. rewrite getRelatedPosts_take.
    replace (Z.to_nat m) with 0%nat by lia. apply take_0.
  - intros ->. rewrite getRelatedPosts_take. apply take_nil.
Qed.

End ScorerFacts.

(** C6. The freshness score is [30 * exp (- ln 2 * days / 180)] with
    [days] the elapsed milliseconds divided by the 86 400 000 milliseconds
    of a day; equivalently [30 * (1/2) ^ (days / 180)], a 180-day
    half-life.  It is positive and not clamped: a publish time after [now]
    makes [days] negative and the score strictly greater than 30. *)
Theorem timeFreshnessScoreOf_unclamped now p :
  let days := (IZR (now - published (post_data p)) / 86400000)%R in
  timeFreshnessScoreOf now p = (30 * exp (- ln 2 * days / 180))%R
  ∧ timeFreshnessScoreOf now p = (30 * Rpower (1 / 2) (days / 180))%R
  ∧ (0 < timeFreshnessScoreOf now p)%R
  ∧ ((now < published (post_data p))%Z ->
     (days < 0)%R ∧ (30 < timeFreshnessScoreOf now p)%R).
Proof.
  intros days.
  assert (Hdays : daysSincePublished now p = days).
  { unfold daysSincePublished, days. f_equal. lra. }
  split; [|split; [|split]].
  - unfold timeFreshnessScoreOf. rewrite Hdays. reflexivity.
  - unfold timeFreshnessScoreOf, Rpower. rewrite Hdays.
    replace (1 / 2)%R with (/ 2)%R by lra.
    rewrite ln_Rinv by lra. f_equal. f_equal. lra.
  - apply timeFreshnessScoreOf_pos.
  - intros Ht. split; [|apply timeFreshnessScoreOf_future, Ht].
    unfold days.
    assert (IZR (now - published (post_data p)) < 0)%R
      by (apply (IZR_lt _ 0); lia).
    lra.
Qed.

(** C7. The category bonus is 10 exactly when both records carry the same
    non-empty category string, compared as is; it is 0 otherwise, and in
    particular when both records lack a category. *)
Theorem categoryBonusOf_exact currentPost p :
  (categoryBonusOf currentPost p = 10%R
   ↔ ∃ c, c ≠ EmptyString
          ∧ category (post_data currentPost) = Some c
          ∧ category (post_data p) = Some c)
  ∧ (categoryBonusOf currentPost p = 10%R ∨ categoryBonusOf currentPost p = 0%R)
  ∧ (or_empty (category (post_data currentPost)) = EmptyString ->
     or_empty (category (post_data p)) = EmptyString ->
     categoryBonusOf currentPost p = 0%R).
Proof.
  unfold categoryBonusOf.
  destruct (category (post_data currentPost)) as [[|a c1]|],
           (category (post_data p)) as [[|b c2]|]; simpl;
    try (split; [split; [intros H; exfalso; lra
                        |intros (c & Hc & H1 & H2); congruence]
                |split; [right; reflexivity|intros; reflexivity]]).
  case_bool_decide as Heq.
  - split; [|split; [left; reflexivity|intros H; discriminate H]].
    split; [|reflexivity]. intros _. exists (String a c1).
    split; [discriminate|]. split; [reflexivity|congruence].
  - split; [|split; [right; reflexivity|intros; reflexivity]].
    split; [intros H; exfalso; lra|].
    intros (c & _ & H1 & H2). congruence.
Qed.

(** C8. The similarity is the size of the intersection divided by the
    size of the union whenever the union is non-empty, and 0 when both
    sets are empty, which is the only way for the union to be empty.  The
    divisor [a.size + b.size - intersection] is the size of the union and
    is positive whenever the division is evaluated, so no division by zero
    occurs; the result always lies between 0 and 1. *)
Theorem jaccardSimilarity_spec (a b : gset string) :
  (a ∪ b ≠ ∅ ->
   jaccardSimilarity a b = (INR (size (a ∩ b)) / INR (size (a ∪ b)))%R)
  ∧ (a = ∅ ∧ b = ∅ -> jaccardSimilarity a b = 0%R)
  ∧ (a ∪ b = ∅ -> jaccardSimilarity a b = 0%R)
  ∧ jaccard_union a b = Z.of_nat (size (a ∪ b))
  ∧ (¬ (size a = 0%nat ∧ size b = 0%nat) -> (0 < jaccard_union a b)%Z)
  ∧ (0 <= jaccardSimilarity a b <= 1)%R.
Proof.
  assert (Hempty : a ∪ b = ∅ -> jaccardSimilarity a b = 0%R).
  { intros Hu. apply jaccardSimilarity_zero_iff. set_solver. }
  split; [|split; [|split; [|split; [|split]]]].
  - intros Hu. apply jaccardSimilarity_quotient. intros [Ha Hb].
    apply size_empty_inv in Ha, Hb. apply Hu. set_solver.
  - intros [-> ->]. apply Hempty. set_solver.
  - exact Hempty.
  - apply jaccard_union_size.
  - apply jaccard_union_pos.
  - apply jaccardSimilarity_range.
Qed.

(** ** Worked scenario *)

Lemma sort_insert_keep {A : Type} (cmp : A -> A -> R) (x y : A) (l : list A) :
  (cmp x y <= 0)%R -> sort_insert cmp x (y :: l) = x :: y :: l.
Proof. intros H. simpl. rewrite decide_True by exact H. reflexivity. Qed.

Lemma sort_insert_pass {A : Type} (cmp : A -> A -> R) (x y : A) (l : list A) :
  (0 < cmp x y)%R -> sort_insert cmp x (y :: l) = y :: sort_insert cmp x l.
Proof. intros H. simpl. rewrite decide_False by lra. reflexivity. Qed.

Lemma jaccardSimilarity_eval (a b : gset string) (i u : nat) :
  size (a ∩ b) = i -> size (a ∪ b) = S u ->
  jaccardSimilarity a b = (INR i / INR (S u))%R.
Proof.
  intros Hi Hu. rewrite jaccardSimilarity_quotient, Hi, Hu; [reflexivity|].
  intros [Ha Hb]. apply size_empty_inv in Ha, Hb.
  assert (a ∪ b = ∅) as He by set_solver.
  rewrite He, size_empty in Hu. discriminate Hu.
Qed.

Lemma sample_candidates :
  candidates sample_corpus sample_reference
  = [sample_y; sample_x; sample_future].
Proof. vm_compute. reflexivity. Qed.

Lemma sample_x_scores :
  tagMatchScore (sample_score sample_x) = 50%R
  ∧ categoryBonus (sample_score sample_x) = 10%R
  ∧ totalScore (sample_score sample_x)
    = (60 + timeFreshnessScore (sample_score sample_x))%R
  ∧ (0 < timeFreshnessScore (sample_score sample_x) < 30)%R.
Proof.
  assert (Htag : tagMatchScoreOf sample_reference sample_x = 50%R).
  { unfold tagMatchScoreOf.
    rewrite (jaccardSimilarity_eval _ _ 1 1) by (vm_compute; reflexivity).
    simpl. lra. }
  assert (Htitle : titleSimilarityScoreOf ascii_segment ascii_toLowerCase
                     sample_reference sample_x = 0%R).
  { unfold titleSimilarityScoreOf.
    rewrite (jaccardSimilarity_eval _ _ 0 3) by (vm_compute; reflexivity).
    simpl. lra. }
  assert (Hcat : categoryBonusOf sample_reference sample_x = 10%R)
    by reflexivity.
  unfold scoreCandidate. simpl. rewrite Htag, Htitle, Hcat.
  split; [reflexivity|]. split; [reflexivity|]. split; [lra|].
  split; [apply timeFreshnessScoreOf_pos|].
  apply timeFreshnessScoreOf_past. vm_compute. reflexivity.
Qed.

Lemma sample_y_scores :
  tagMatchScore (sample_score sample_y) = 0%R
  ∧ categoryBonus (sample_score sample_y) = 0%R
  ∧ totalScore (sample_score sample_y)
    = (100 + timeFreshnessScore (sample_score sample_y))%R
  ∧ (0 < timeFreshnessScore (sample_score sample_y) < 30)%R.
Proof.
  assert (Htag : tagMatchScoreOf sample_reference sample_y = 0%R).
  { unfold tagMatchScoreOf.
    rewrite (jaccardSimilarity_eval _ _ 0 2) by (vm_compute; reflexivity).
    simpl. lra. }
  assert (Htitle : titleSimilarityScoreOf ascii_segment ascii_toLowerCase
                     sample_reference sample_y = 100%R).
  { unfold titleSimilarityScoreOf.
    rewrite (jaccardSimilarity_eval _ _ 3 2) by (vm_compute; reflexivity).
    simpl. lra. }
  assert (Hcat : categoryBonusOf sample_reference sample_y = 0%R)
    by reflexivity.
  unfold scoreCandidate. simpl. rewrite Htag, Htitle, Hcat.
  split; [reflexivity|]. split; [reflexivity|]. split; [lra|].
  split; [apply timeFreshnessScoreOf_pos|].
  apply timeFreshnessScoreOf_past. vm_compute. reflexivity.
Qed.

Lemma sample_future_scores :
  tagMatchScore (sample_score sample_future) = 0%R
  ∧ categoryBonus (sample_score sample_future) = 0%R
  ∧ totalScore (sample_score sample_future)
    = timeFreshnessScore (sample_score sample_future)
  ∧ (30 < timeFreshnessScore (sample_score sample_future) <= 60)%R.
Proof.
  assert (Htag : tagMatchScoreOf sample_reference sample_future = 0%R).
  { unfold tagMatchScoreOf.
    rewrite (jaccardSimilarity_eval _ _ 0 1) by (vm_compute; reflexivity).
    simpl. lra. }
  assert (Htitle : titleSimilarityScoreOf ascii_segment ascii_toLowerCase
                     sample_reference sample_future = 0%R).
  { unfold titleSimilarityScoreOf.
    rewrite (jaccardSimilarity_eval _ _ 0 3) by (vm_compute; reflexivity).
    simpl. lra. }
  assert (Hcat : categoryBonusOf sample_reference sample_future = 0%R)
    by reflexivity.
  unfold scoreCandidate. simpl. rewrite Htag, Htitle, Hcat.
  split; [reflexivity|]. split; [reflexivity|]. split; [lra|].
  split; [apply timeFreshnessScoreOf_future; vm_compute; reflexivity|].
  apply timeFreshnessScoreOf_le_60. vm_compute. discriminate.
Qed.

Lemma sample_sortedScored :
  sortedScored ascii_segment ascii_toLowerCase 0 sample_corpus sample_reference
  = [sample_score sample_y; sample_score sample_x; sample_score sample_future].
Proof.
  destruct sample_x_scores as (_ & _ & Hx & Hfx).
  destruct sample_y_scores as (_ & _ & Hy & Hfy).
  destruct sample_future_scores as (_ & _ & Hf & Hff).
  unfold sortedScored, scored. rewrite sample_candidates.
  unfold array_sort. cbn [fmap list_fmap foldr].
  change (sort_insert byTotalScore (sample_score sample_future) [])
    with [sample_score sample_future].
  rewrite !sort_insert_keep; [reflexivity| |]; unfold byTotalScore; lra.
Qed.

Lemma sample_withTagMatch :
  withTagMatch
    (sortedScored ascii_segment ascii_toLowerCase 0 sample_corpus sample_reference)
  = [sample_score sample_x].
Proof.
  destruct sample_x_scores as (Hx & _).
  destruct sample_y_scores as (Hy & _).
  destruct sample_future_scores as (Hf & _).
  rewrite sample_sortedScored. unfold withTagMatch.
  rewrite filter_cons_False by lra.
  rewrite filter_cons_True by lra.
  rewrite filter_cons_False by lra.
  reflexivity.
Qed.

Lemma sample_fallbackTier :
  fallbackTier ascii_segment ascii_toLowerCase 0 sample_corpus sample_reference
  = [sample_score sample_future; sample_score sample_y].
Proof.
  destruct sample_x_scores as (Hx & _).
  destruct sample_y_scores as (Hy & Hcy & _ & Hfy).
  destruct sample_future_scores as (Hf & Hcf & _ & Hff).
  unfold fallbackTier. rewrite sample_sortedScored. unfold withoutTagMatch.
  rewrite filter_cons_True by exact Hy.
  rewrite filter_cons_False by lra.
  rewrite filter_cons_True by exact Hf.
  rewrite filter_nil. unfold array_sort. cbn [foldr].
  change (sort_insert byFreshnessAndCategory (sample_score sample_future) [])
    with [sample_score sample_future].
  rewrite sort_insert_pass by (unfold byFreshnessAndCategory; lra).
  reflexivity.
Qed.

Lemma sample_related_5 :
  sample_related 5
  = [ mkPostForList "x" (post_data sample_x);
      mkPostForList "future" (post_data sample_future);
      mkPostForList "y" (post_data sample_y) ].
Proof.
  rewrite getRelatedPosts_take, sample_withTagMatch, sample_fallbackTier.
  reflexivity.
Qed.

(** ** Instances of the theorems on the worked scenario *)


Lemma getRelatedPosts_exclusions_witness :
  (pfl_id (mkPostForList "x" (post_data sample_x)) ≠ post_id sample_reference
   ∧ truthy_opt (password (pfl_data (mkPostForList "x" (post_data sample_x))))
     = false)
  ∧ NoDup (post_id <$> sample_corpus)
  ∧ post_id sample_locked ∉ pfl_id <$> sample_related 5.
Proof.
  pose proof (getRelatedPosts_exclusions ascii_segment ascii_toLowerCase 0
                sample_corpus sample_reference 5) as (Hout & _ & Hids).
  assert (Hnd : NoDup (post_id <$> sample_corpus)).
  { by_compute. }
  split; [|split; [exact Hnd|]].
  - destruct (Hout (mkPostForList "x" (post_data sample_x))) as (H1 & H2 & _).
    + rewrite sample_related_5. left.
    + split; assumption.
  - apply (Hids Hnd sample_locked).
    + by_compute.
    + reflexivity.
Defined.

Lemma getRelatedPosts_length_witness :
  length (sample_related 2) = 2%nat
  ∧ sample_related 5
    ≡ₚ (fun p => mkPostForList (post_id p) (post_data p))
       <$> [sample_y; sample_x; sample_future].
Proof.
  split.
  - pose proof (getRelatedPosts_length ascii_segment ascii_toLowerCase 0
                  sample_corpus sample_reference 2) as Hlen.
    destruct Hlen as (Hlen & _); [lia|].
    rewrite sample_candidates in Hlen. simpl in Hlen. lia.
  - rewrite <- sample_candidates.
    apply (getRelatedPosts_length ascii_segment ascii_toLowerCase 0
             sample_corpus sample_reference 5); [lia|].
    rewrite sample_candidates. simpl. lia.
Defined.

(** With room for one entry only the tag-matched [x] is returned, although
    [y] has the higher total score; with room for five, [x] comes first and
    the rest follows by freshness plus category, [future] before [y]. *)
Lemma getRelatedPosts_two_tier_witness :
  sample_related 1 = [ mkPostForList "x" (post_data sample_x) ]
  ∧ sample_related 5
    = [ mkPostForList "x" (post_data sample_x);
        mkPostForList "future" (post_data sample_future);
        mkPostForList "y" (post_data sample_y) ]
  ∧ (totalScore (sample_score sample_x) < totalScore (sample_score sample_y))%R.
Proof.
  split; [|split].
  - pose proof (getRelatedPosts_two_tier ascii_segment ascii_toLowerCase 0
                  sample_corpus sample_reference 1) as H.
    simpl in H. destruct H as (_ & _ & _ & _ & _ & _ & Hfull & _).
    rewrite Hfull.
    + rewrite sample_withTagMatch. reflexivity.
    + rewrite sample_withTagMatch. simpl. lia.
  - pose proof (getRelatedPosts_two_tier ascii_segment ascii_toLowerCase 0
                  sample_corpus sample_reference 5) as H.
    simpl in H. destruct H as (_ & _ & _ & _ & _ & _ & _ & Hshort).
    rewrite Hshort.
    + rewrite sample_withTagMatch, sample_fallbackTier. reflexivity.
    + rewrite sample_withTagMatch. simpl. lia.
  - destruct sample_x_scores as (_ & _ & Hx & Hfx).
    destruct sample_y_scores as (_ & _ & Hy & Hfy).
    lra.
Defined.

Lemma scoreCandidate_retains_witness :
  Scored_props (sample_score sample_x)
  = [ ("totalScore", totalScore (sample_score sample_x));
      ("tagMatchScore", tagMatchScoreOf sample_reference sample_x);
      ("timeFreshnessScore", timeFreshnessScoreOf 0 sample_x);
      ("categoryBonus", categoryBonusOf sample_reference sample_x) ].
Proof.
  pose proof (scoreCandidate_retains ascii_segment ascii_toLowerCase 0
                sample_reference sample_x) as H.
  simpl in H. destruct H as (_ & _ & _ & Hsorted).
  apply (Hsorted sample_corpus (sample_score sample_x)).
  rewrite sample_sortedScored. right. left.
Defined.

(** No property of the scored candidate is named [titleSimilarityScore]. *)
Lemma scoreCandidate_retains_counterexample :
  ¬ ∃ v : R, ("titleSimilarityScore", v) ∈ Scored_props (sample_score sample_x).
Proof.
  intros [v Hv]. unfold Scored_props in Hv.
  repeat (apply elem_of_cons in Hv as [Hv|Hv]; [discriminate Hv|]).
  apply elem_of_nil in Hv. exact Hv.
Qed.

Lemma timeFreshnessScoreOf_unclamped_witness :
  (30 < timeFreshnessScoreOf 0 sample_future)%R.
Proof.
  apply (timeFreshnessScoreOf_unclamped 0 sample_future).
  vm_compute. reflexivity.
Defined.

Lemma categoryBonusOf_exact_witness :
  categoryBonusOf sample_reference sample_x = 10%R
  ∧ categoryBonusOf sample_future sample_future = 0%R.
Proof.
  split.
  - apply (categoryBonusOf_exact sample_reference sample_x).
    exists "systems". split; [discriminate|]. split; reflexivity.
  - apply (categoryBonusOf_exact sample_future sample_future); reflexivity.
Defined.

Lemma jaccardSimilarity_spec_witness :
  jaccardSimilarity (tagsOf sample_reference) (tagsOf sample_x) = (1 / 2)%R
  ∧ jaccardSimilarity ∅ ∅ = 0%R
  ∧ (0 < jaccard_union (tagsOf sample_reference) (tagsOf sample_x))%Z.
Proof.
  split; [|split].
  - rewrite (proj1 (jaccardSimilarity_spec (tagsOf sample_reference)
                                           (tagsOf sample_x))).
    + replace (size (tagsOf sample_reference ∩ tagsOf sample_x)) with 1%nat
        by (vm_compute; reflexivity).
      replace (size (tagsOf sample_reference ∪ tagsOf sample_x)) with 2%nat
        by (vm_compute; reflexivity).
      simpl. lra.
    + intros He.
      assert (Hs : size (tagsOf sample_reference ∪ tagsOf sample_x) = 0%nat)
        by (rewrite He; apply size_empty).
      vm_compute in Hs. discriminate Hs.
  - apply (jaccardSimilarity_spec ∅ ∅). split; reflexivity.
  - apply (jaccardSimilarity_spec (tagsOf sample_reference) (tagsOf sample_x)).
    intros [Hs _]. vm_compute in Hs. discriminate Hs.
Defined.

Lemma getRelatedPosts_call_total_witness :
  ∃ l, getRelatedPosts_call ascii_segment ascii_toLowerCase 0 sample_corpus
         sample_reference (Some (-1)%Z) = Fulfilled l
       ∧ l = [].
Proof.
  destruct (getRelatedPosts_call_total ascii_segment ascii_toLowerCase 0
              sample_corpus sample_reference (Some (-1)%Z))
    as (l & Hl & Hneg & _).
  exists l. split; [exact Hl|].
  apply (Hneg (-1)%Z); [reflexivity|lia].
Defined.

(** A negative [maxCount] is not rejected: the call is fulfilled with the
    empty list. *)
Lemma getRelatedPosts_call_negative_counterexample :
  getRelatedPosts_call ascii_segment ascii_toLowerCase 0 sample_corpus
    sample_reference (Some (-1)%Z) = Fulfilled []
  ∧ ∀ reason,
      getRelatedPosts_call ascii_segment ascii_toLowerCase 0 sample_corpus
        sample_reference (Some (-1)%Z) ≠ Rejected reason.
Proof.
  split; [|intros reason H; discriminate H].
  unfold getRelatedPosts_call. f_equal. simpl.
  rewrite getRelatedPosts_take. reflexivity.
Qed.

(** ["Go"] against ["go"; "rust"]: the lower-cased tag is a tag of the
    reference, the raw tag is not, and the score is 0. *)
Lemma tagMatchScoreOf_case_sensitive_witness :
  ascii_toLowerCase "Go" ∈ or_nil (tags (post_data sample_reference))
  ∧ tagMatchScore (sample_score sample_y) = 0%R
  ∧ withTagMatch [sample_score sample_y] = [].
Proof.
  split.
  - by_compute.
  - destruct (tagMatchScoreOf_case_sensitive ascii_segment ascii_toLowerCase 0
                sample_reference sample_y) as (_ & Hd & _).
    destruct Hd as (H1 & H2 & _); [|split; assumption].
    intros t Ht.
    simpl in Ht. apply elem_of_cons in Ht as [->|Ht]; [by_compute|].
    apply elem_of_cons in Ht as [->|Ht]; [by_compute|].
    apply elem_of_nil in Ht. contradiction.
Defined.


(** * Further properties *)

(** ** More on [jaccardSimilarity] and the sub-scores *)

(** X1. The similarity does not depend on the order of its arguments,
    although the loop walks the first set only. *)
Theorem jaccardSimilarity_sym (a b : gset string) :
  jaccardSimilarity a b = jaccardSimilarity b a.
Proof.
  destruct (decide (size a = 0%nat ∧ size b = 0%nat)) as [He|Hne].
  - unfold jaccardSimilarity.
    rewrite decide_True by exact He. rewrite decide_True by tauto.
    reflexivity.
  - rewrite !jaccardSimilarity_quotient by tauto.
    rewrite (intersection_comm_L a b), (union_comm_L a b). reflexivity.
Qed.

(** X2. The similarity is 1 exactly for two equal, non-empty sets. *)
Theorem jaccardSimilarity_one_iff (a b : gset string) :
  jaccardSimilarity a b = 1%R ↔ a = b ∧ a ≠ ∅.
Proof.
  split.
  - intros H1.
    destruct (decide (size a = 0%nat ∧ size b = 0%nat)) as [He|Hne].
    { unfold jaccardSimilarity in H1. rewrite decide_True in H1 by exact He.
      lra. }
    rewrite jaccardSimilarity_quotient in H1 by exact Hne.
    pose proof (jaccard_union_pos a b Hne) as Hpos.
    rewrite jaccard_union_size in Hpos.
    assert (Hu : (0 < INR (size (a ∪ b)))%R) by (apply lt_0_INR; lia).
    assert (Heq : INR (size (a ∩ b)) = INR (size (a ∪ b))).
    { apply (Rmult_eq_reg_r (/ INR (size (a ∪ b)))).
      - unfold Rdiv in H1. rewrite H1, Rinv_r; lra.
      - apply Rinv_neq_0_compat. lra. }
    apply INR_eq in Heq.
    assert (Hiu : a ∩ b = a ∪ b).
    { apply set_subseteq_size_eq; [set_solver|lia]. }
    assert (Hab : a = b).
    { apply set_eq. intros x. split; intros Hx.
      - assert (x ∈ a ∩ b) by (rewrite Hiu; set_solver). set_solver.
      - assert (x ∈ a ∩ b) by (rewrite Hiu; set_solver). set_solver. }
    split; [exact Hab|].
    intros ->. subst b. apply Hne. rewrite size_empty. tauto.
  - intros [<- Hne].
    assert (Hs : size a ≠ 0%nat).
    { intros Hs. apply size_empty_inv in Hs. apply Hne. set_solver. }
    rewrite jaccardSimilarity_quotient by tauto.
    replace (a ∩ a) with a by set_solver.
    replace (a ∪ a) with a by set_solver.
    apply Rinv_r. apply not_0_INR. exact Hs.
Qed.




(** ** More on the selection *)

Section SelectionFacts.

Variable segment : string -> list (string * bool).
Variable toLowerCase : string -> string.

Lemma filter_none {A : Type} (P : A -> Prop) `{!∀ x, Decision (P x)}
      (l : list A) :
  Forall (fun x => ¬ P x) l -> filter P l = [].
Proof.
  induction 1 as [|x l Hx _ IH]; [reflexivity|].
  rewrite filter_cons_False by exact Hx. exact IH.
Qed.

Lemma candidates_idemp allPosts currentPost :
  candidates (candidates allPosts currentPost) currentPost
  = candidates allPosts currentPost.
Proof.
  unfold candidates. rewrite list_filter_filter.
  apply list_filter_iff. intros p. tauto.
Qed.

Lemma getRelatedPosts_candidates now l1 l2 currentPost maxCount :
  candidates l1 currentPost = candidates l2 currentPost ->
  getRelatedPosts segment toLowerCase now l1 currentPost maxCount
  = getRelatedPosts segment toLowerCase now l2 currentPost maxCount.
Proof.
  intros He. unfold getRelatedPosts, sortedScored, scored. rewrite He.
  reflexivity.
Qed.

(** X6. With unique ids in the corpus no post is recommended twice. *)
Theorem getRelatedPosts_NoDup now allPosts currentPost maxCount :
  NoDup (post_id <$> allPosts) ->
  NoDup (pfl_id <$> getRelatedPosts segment toLowerCase now allPosts currentPost maxCount).
Proof.
  intros Hnd. rewrite getRelatedPosts_take, fmap_take.
  eapply sublist_NoDup; [|apply sublist_take].
  rewrite <- list_fmap_compose, tiers_perm. unfold scored.
  rewrite <- list_fmap_compose.
  eapply sublist_NoDup; [exact Hnd|].
  apply fmap_sublist. unfold candidates. apply sublist_filter.
Qed.

(** X7. Asking for fewer posts gives a prefix of what asking for more
    gives: the list for [m] is the first [m] entries of the list for any
    [m' >= m]. *)
Theorem getRelatedPosts_prefix now allPosts currentPost m m' :
  (m <= m')%Z ->
  getRelatedPosts segment toLowerCase now allPosts currentPost m
  = take (Z.to_nat m) (getRelatedPosts segment toLowerCase now allPosts currentPost m').
Proof.
  intros Hle. rewrite !getRelatedPosts_take, take_take.
  f_equal. lia.
Qed.

(** X8. Records that are filtered out have no influence: inserting the
    current post or a password-protected post anywhere in the corpus
    leaves the recommendations unchanged, and so does removing all of
    them beforehand. *)
Theorem getRelatedPosts_ignores_excluded now l1 l2 x currentPost maxCount :
  (post_id x = post_id currentPost
   ∨ truthy_opt (password (post_data x)) = true) ->
  getRelatedPosts segment toLowerCase now (l1 ++ x :: l2) currentPost maxCount
  = getRelatedPosts segment toLowerCase now (l1 ++ l2) currentPost maxCount
  ∧ getRelatedPosts segment toLowerCase now
      (candidates (l1 ++ x :: l2) currentPost) currentPost maxCount
    = getRelatedPosts segment toLowerCase now (l1 ++ x :: l2) currentPost maxCount.
Proof.
  intros Hx. split.
  - apply getRelatedPosts_candidates. unfold candidates.
    rewrite !filter_app, filter_cons.
    destruct (decide (eligible currentPost x)) as [[Hid Hpw]|_];
      [|reflexivity].
    destruct Hx as [Hx|Hx]; congruence.
  - apply getRelatedPosts_candidates, candidates_idemp.
Qed.

(** X9. In the fallback tier, candidates with the same freshness plus
    category bonus are in non-increasing total score: the second sort is
    stable and runs on the list already sorted by total score. *)
Theorem fallbackTier_ties_by_total now allPosts currentPost (v : R) :
  descending totalScore
    (filter (fun s => (timeFreshnessScore s + categoryBonus s)%R = v)
            (fallbackTier segment toLowerCase now allPosts currentPost)).
Proof.
  unfold fallbackTier. rewrite filter_array_sort.
  - apply descending_filter. unfold withoutTagMatch.
    apply descending_filter, sortedScored_descending.
  - intros x y Hx Hy. unfold byFreshnessAndCategory. lra.
Qed.

(** X10. The title score is 0 exactly when the two titles share no
    lower-cased word-like segment; in particular when one of the titles
    has no word-like segment at all. *)
Theorem titleSimilarityScoreOf_zero currentPost p :
  (titleSimilarityScoreOf segment toLowerCase currentPost p = 0%R
   ↔ ∀ s1 s2, (s1, true) ∈ segment (title (post_data currentPost)) ->
              (s2, true) ∈ segment (title (post_data p)) ->
              toLowerCase s1 ≠ toLowerCase s2)
  ∧ ((∀ s, (s, true) ∉ segment (title (post_data p))) ->
     titleSimilarityScoreOf segment toLowerCase currentPost p = 0%R)
  ∧ ((∀ s, (s, true) ∉ segment (title (post_data currentPost))) ->
     titleSimilarityScoreOf segment toLowerCase currentPost p = 0%R).
Proof.
  assert (Hiff : titleSimilarityScoreOf segment toLowerCase currentPost p = 0%R
                 ↔ ∀ s1 s2, (s1, true) ∈ segment (title (post_data currentPost)) ->
                            (s2, true) ∈ segment (title (post_data p)) ->
                            toLowerCase s1 ≠ toLowerCase s2).
  { unfold titleSimilarityScoreOf.
    assert (H100 : ∀ x : R, (x * 100 = 0 ↔ x = 0)%R) by (intros x; lra).
    rewrite H100, jaccardSimilarity_zero_iff. split.
    - intros He s1 s2 H1 H2 Heq.
      assert (Hin : toLowerCase s1 ∈ (∅ : gset string)); [|set_solver].
      rewrite <- He. apply elem_of_intersection. split.
      + apply tokenizeTitle_elem_of. eauto.
      + apply tokenizeTitle_elem_of. exists s2. split; [exact H2|exact Heq].
    - intros Hd. apply set_eq. intros tok. split; [|set_solver].
      rewrite elem_of_intersection, !tokenizeTitle_elem_of.
      intros [(s1 & H1 & ->) (s2 & H2 & Heq)].
      exfalso. exact (Hd s1 s2 H1 H2 Heq). }
  split; [exact Hiff|]. split.
  - intros Hno. apply Hiff. intros s1 s2 _ H2. exfalso. exact (Hno s2 H2).
  - intros Hno. apply Hiff. intros s1 s2 H1 _. exfalso. exact (Hno s1 H1).
Qed.

(** X11. When the current post has no tags, no candidate is tag-matched
    and the recommendations are the leading entries of the list ordered
    by freshness plus category bonus. *)
Theorem getRelatedPosts_without_tags now allPosts currentPost maxCount :
  or_nil (tags (post_data currentPost)) = [] ->
  withTagMatch (sortedScored segment toLowerCase now allPosts currentPost) = []
  ∧ getRelatedPosts segment toLowerCase now allPosts currentPost maxCount
    = take (Z.to_nat maxCount)
           (project <$> fallbackTier segment toLowerCase now allPosts currentPost)
  ∧ fallbackTier segment toLowerCase now allPosts currentPost
    ≡ₚ scored segment toLowerCase now allPosts currentPost.
Proof.
  intros Hno.
  assert (HT : withTagMatch
                 (sortedScored segment toLowerCase now allPosts currentPost) = []).
  { unfold withTagMatch. apply filter_none, Forall_forall.
    intros s Hs. unfold sortedScored in Hs. rewrite array_sort_elem_of in Hs.
    unfold scored in Hs. apply list_elem_of_fmap in Hs as (p & -> & _). simpl.
    assert (Hz : tagMatchScoreOf currentPost p = 0%R).
    { apply tagMatchScoreOf_zero_iff. rewrite Hno. intros t Ht.
      apply elem_of_nil in Ht. contradiction. }
    rewrite Hz. lra. }
  split; [exact HT|]. split.
  - rewrite getRelatedPosts_take, HT. reflexivity.
  - rewrite <- (tiers_perm segment toLowerCase now allPosts currentPost), HT.
    reflexivity.
Qed.

End SelectionFacts.

(** ** Post listings *)

Section SortedBy.

Context {A : Type}.
Variable cmp : A -> A -> R.
Variable before : A -> A -> Prop.
Hypothesis before_trans : ∀ x y z, before x y -> before y z -> before x z.

Lemma sort_insert_sorted_by (x : A) (l : list A) :
  (∀ y, y ∈ l -> ((cmp x y <= 0)%R -> before x y)
                 ∧ (¬ (cmp x y <= 0)%R -> before y x)) ->
  StronglySorted before l -> StronglySorted before (sort_insert cmp x l).
Proof.
  induction l as [|y l IH]; intros Hx Hs; simpl.
  - apply StronglySorted_cons. split; [apply Forall_nil_2|constructor].
  - apply StronglySorted_cons in Hs as [Hy Hl].
    destruct (Hx y) as [Hle Hgt]; [left|].
    destruct (decide (cmp x y <= 0)%R) as [Hc|Hc].
    + apply StronglySorted_cons. split.
      * apply Forall_cons. split; [auto|].
        eapply Forall_impl; [exact Hy|]. simpl. intros z Hz.
        eapply before_trans; [apply Hle, Hc|exact Hz].
      * apply StronglySorted_cons. split; assumption.
    + apply StronglySorted_cons. split.
      * rewrite sort_insert_perm. apply Forall_cons. split; [auto|assumption].
      * apply IH; [|assumption]. intros z Hz. apply Hx. right. exact Hz.
Qed.

(** Sorting is correct as soon as the comparator agrees with a transitive
    order on every two entries at different positions. *)
Lemma array_sort_sorted_by (l : list A) :
  (∀ i j x y, i ≠ j -> l !! i = Some x -> l !! j = Some y ->
              ((cmp x y <= 0)%R -> before x y)
              ∧ (¬ (cmp x y <= 0)%R -> before y x)) ->
  StronglySorted before (array_sort cmp l).
Proof.
  induction l as [|x l IH]; intros Hc; simpl; [constructor|].
  fold (array_sort cmp l). apply sort_insert_sorted_by.
  - intros y Hy. rewrite array_sort_elem_of in Hy.
    apply list_elem_of_lookup in Hy as [j Hj].
    apply (Hc 0%nat (S j)); [lia|reflexivity|exact Hj].
  - apply IH. intros i j a b Hij Ha Hb.
    apply (Hc (S i) (S j)); [lia|exact Ha|exact Hb].
Qed.

End SortedBy.




Section LinkLoop.

Variable upd : Entry -> Entry -> Entry.
Variable other : nat -> nat.
Hypothesis upd_post : ∀ c o, entry_post (upd c o) = entry_post c.
Hypothesis upd_ext :
  ∀ c o o', entry_post o = entry_post o' -> upd c o = upd c o'.

Lemma link_with_length (s : list Entry) (i : nat) :
  length (link_with upd other s i) = length s.
Proof.
  unfold link_with. destruct (s !! i); [|reflexivity].
  destruct (s !! other i); [apply length_insert|reflexivity].
Qed.

Lemma link_with_loop_length (indices : list nat) (s : list Entry) :
  length (foldl (link_with upd other) s indices) = length s.
Proof.
  revert s. induction indices as [|i indices IH]; intros s; simpl;
    [reflexivity|].
  rewrite IH. apply link_with_length.
Qed.

(** After the loop every visited index holds its original entry rewritten
    from the original entry at [other i]; the rest is untouched. *)
Lemma link_with_loop_lookup (indices : list nat) (s : list Entry) (j : nat) :
  NoDup indices ->
  foldl (link_with upd other) s indices !! j
  = if decide (j ∈ indices)
    then match s !! j, s !! other j with
         | Some c, Some o => Some (upd c o)
         | _, _ => s !! j
         end
    else s !! j.
Proof.
  revert j. induction indices as [|i indices IH] using rev_ind; intros j Hnd.
  - cbn [foldl]. destruct (decide (j ∈ [])) as [H|_]; [|reflexivity].
    apply elem_of_nil in H. contradiction.
  - apply NoDup_app in Hnd as (Hnd & Hi & _).
    assert (Hni : i ∉ indices).
    { intros Hin. apply (Hi i Hin). left. }
    rewrite foldl_app. simpl.
    set (s' := foldl (link_with upd other) s indices) in *.
    assert (Hsi : s' !! i = s !! i).
    { rewrite (IH i Hnd). rewrite decide_False by exact Hni. reflexivity. }
    assert (Hso : match s' !! other i, s !! other i with
                  | Some o', Some o => entry_post o' = entry_post o
                  | None, None => True
                  | _, _ => False
                  end).
    { rewrite (IH (other i) Hnd).
      destruct (decide (other i ∈ indices)).
      - destruct (s !! other i) as [o|]; [|exact I].
        destruct (s !! other (other i)); [apply upd_post|reflexivity].
      - destruct (s !! other i); [reflexivity|exact I]. }
    unfold link_with. rewrite Hsi.
    destruct (decide (j = i)) as [->|Hji].
    + rewrite decide_True by (apply elem_of_app; right; left).
      destruct (s !! i) as [c|] eqn:Hc.
      * destruct (s' !! other i) as [o'|], (s !! other i) as [o|];
          try contradiction.
        -- rewrite list_lookup_insert_eq.
           ++ f_equal. apply upd_ext. exact Hso.
           ++ apply lookup_lt_is_Some. rewrite Hsi. eauto.
        -- rewrite Hsi. reflexivity.
      * rewrite Hsi. reflexivity.
    + assert (Hin : j ∈ indices ++ [i] ↔ j ∈ indices).
      { rewrite elem_of_app, list_elem_of_singleton. tauto. }
      assert (Hsj : (match s !! i with
                     | Some cur =>
                         match s' !! other i with
                         | Some o => <[i:=upd cur o]> s'
                         | None => s'
                         end
                     | None => s'
                     end) !! j = s' !! j).
      { destruct (s !! i); [|reflexivity].
        destruct (s' !! other i); [|reflexivity].
        apply list_lookup_insert_ne. congruence. }
      rewrite Hsj, (IH j Hnd).
      destruct (decide (j ∈ indices)) as [Hj|Hj].
      * rewrite decide_True by (apply Hin; exact Hj). reflexivity.
      * rewrite decide_False by (rewrite Hin; exact Hj). reflexivity.
Qed.

End LinkLoop.

Lemma link_next_loop_lookup (s : list Entry) (j : nat) :
  foldl link_next s (seq 1 (length s - 1)) !! j
  = match j, s !! j with
    | S j', Some e =>
        match s !! j' with
        | Some b => Some (set_next e (post_id (entry_post b))
                                   (title (post_data (entry_post b))))
        | None => Some e
        end
    | _, o => o
    end.
Proof.
  change (foldl link_next) with
    (foldl (link_with
              (fun c o => set_next c (post_id (entry_post o))
                                   (title (post_data (entry_post o))))
              (fun i => (i - 1)%nat))).
  rewrite link_with_loop_lookup; [|reflexivity| |apply NoDup_seq].
  - destruct (decide (j ∈ seq 1 (length s - 1))) as [Hin|Hout].
    + apply elem_of_seq in Hin. destruct j as [|j']; [lia|].
      replace (S j' - 1)%nat with j' by lia.
      destruct (s !! S j'); [|reflexivity].
      destruct (s !! j'); reflexivity.
    + rewrite elem_of_seq in Hout. destruct j as [|j'].
      * destruct (s !! 0%nat); reflexivity.
      * rewrite (lookup_ge_None_2 s (S j')) by lia. reflexivity.
  - intros c o o' He. rewrite He. reflexivity.
Qed.

Lemma link_prev_loop_lookup (s : list Entry) (j : nat) :
  foldl link_prev s (seq 0 (length s - 1)) !! j
  = match s !! j, s !! S j with
    | Some e, Some a => Some (set_prev e (post_id (entry_post a))
                                       (title (post_data (entry_post a))))
    | o, _ => o
    end.
Proof.
  change (foldl link_prev) with
    (foldl (link_with
              (fun c o => set_prev c (post_id (entry_post o))
                                   (title (post_data (entry_post o))))
              (fun i => (i + 1)%nat))).
  rewrite link_with_loop_lookup; [|reflexivity| |apply NoDup_seq].
  - replace (j + 1)%nat with (S j) by lia.
    destruct (decide (j ∈ seq 0 (length s - 1))) as [Hin|Hout].
    + destruct (s !! j); [|reflexivity]. destruct (s !! S j); reflexivity.
    + rewrite elem_of_seq in Hout.
      rewrite (lookup_ge_None_2 s (S j)) by lia.
      destruct (s !! j); reflexivity.
  - intros c o o' He. rewrite He. reflexivity.
Qed.

(** Entry [j] of [getSortedPosts], from the list [getRawSortedPosts]
    returns: its neighbours' ids and titles are written into it. *)
Lemma getSortedPosts_lookup (allBlogPosts : list Entry) (j : nat) :
  getSortedPosts allBlogPosts !! j
  = (fun e =>
       mkEntry (entry_post e) (pinned e) (description e)
         (match j with
          | S j' =>
              match getRawSortedPosts allBlogPosts !! j' with
              | Some b => Some (post_id (entry_post b))
              | None => nextSlug e
              end
          | O => nextSlug e
          end)
         (match j with
          | S j' =>
              match getRawSortedPosts allBlogPosts !! j' with
              | Some b => Some (title (post_data (entry_post b)))
              | None => nextTitle e
              end
          | O => nextTitle e
          end)
         (match getRawSortedPosts allBlogPosts !! S j with
          | Some a => Some (post_id (entry_post a))
          | None => prevSlug e
          end)
         (match getRawSortedPosts allBlogPosts !! S j with
          | Some a => Some (title (post_data (entry_post a)))
          | None => prevTitle e
          end))
    <$> getRawSortedPosts allBlogPosts !! j.
Proof.
  unfold getSortedPosts. set (s := getRawSortedPosts allBlogPosts).
  rewrite link_prev_loop_lookup, !link_next_loop_lookup.
  destruct j as [|j'].
  - destruct (s !! 0%nat) as [e|], (s !! 1%nat) as [a|]; simpl;
      try reflexivity; destruct e; reflexivity.
  - destruct (s !! j') as [b|], (s !! S j') as [e|], (s !! S (S j')) as [a|];
      simpl; try reflexivity; destruct e; reflexivity.
Qed.

Lemma getSortedPosts_length (allBlogPosts : list Entry) :
  length (getSortedPosts allBlogPosts) = length allBlogPosts.
Proof.
  unfold getSortedPosts.
  change (foldl link_prev) with
    (foldl (link_with
              (fun c o => set_prev c (post_id (entry_post o))
                                   (title (post_data (entry_post o))))
              (fun i => (i + 1)%nat))).
  change (foldl link_next) with
    (foldl (link_with
              (fun c o => set_next c (post_id (entry_post o))
                                   (title (post_data (entry_post o))))
              (fun i => (i - 1)%nat))).
  rewrite !link_with_loop_length. apply array_sort_length.
Qed.

(** X13. [getSortedPosts] links neighbours both ways: of two consecutive
    entries the first gets the second as its "prev" and the second gets
    the first as its "next", by id and title.  The first entry keeps
    whatever "next" it had and the last entry whatever "prev" it had, and
    no entry is added or lost. *)
Theorem getSortedPosts_links (allBlogPosts : list Entry) :
  length (getSortedPosts allBlogPosts) = length allBlogPosts
  ∧ (∀ i a b,
       getSortedPosts allBlogPosts !! i = Some a ->
       getSortedPosts allBlogPosts !! S i = Some b ->
       prevSlug a = Some (post_id (entry_post b))
       ∧ prevTitle a = Some (title (post_data (entry_post b)))
       ∧ nextSlug b = Some (post_id (entry_post a))
       ∧ nextTitle b = Some (title (post_data (entry_post a))))
  ∧ (∀ a a0,
       getSortedPosts allBlogPosts !! 0%nat = Some a ->
       getRawSortedPosts allBlogPosts !! 0%nat = Some a0 ->
       nextSlug a = nextSlug a0 ∧ nextTitle a = nextTitle a0)
  ∧ (∀ a a0,
       getSortedPosts allBlogPosts !! (length allBlogPosts - 1)%nat = Some a ->
       getRawSortedPosts allBlogPosts !! (length allBlogPosts - 1)%nat = Some a0 ->
       prevSlug a = prevSlug a0 ∧ prevTitle a = prevTitle a0).
Proof.
  split; [apply getSortedPosts_length|]. split; [|split].
  - intros i a b Ha Hb. rewrite getSortedPosts_lookup in Ha, Hb.
    destruct (getRawSortedPosts allBlogPosts !! i) as [ea|] eqn:Hea;
      [|discriminate Ha].
    destruct (getRawSortedPosts allBlogPosts !! S i) as [eb|] eqn:Heb;
      [|discriminate Hb].
    simpl in Ha, Hb. injection Ha as <-. injection Hb as <-. simpl.
    repeat split; reflexivity.
  - intros a a0 Ha Ha0. rewrite getSortedPosts_lookup, Ha0 in Ha.
    simpl in Ha. injection Ha as <-. split; reflexivity.
  - intros a a0 Ha Ha0. rewrite getSortedPosts_lookup, Ha0 in Ha.
    rewrite (lookup_ge_None_2 (getRawSortedPosts allBlogPosts)) in Ha.
    + simpl in Ha. injection Ha as <-. split; reflexivity.
    + unfold getRawSortedPosts. rewrite array_sort_length.
      apply lookup_lt_Some in Ha0. unfold getRawSortedPosts in Ha0.
      rewrite array_sort_length in Ha0. lia.
Qed.

(** X14. [getSortedPosts] and [getSortedPostsList] list the same posts in
    the same order: writing the neighbour links changes neither the id,
    the data read by the model, the pinned state nor the description. *)
Theorem getSortedPosts_same_listing (allBlogPosts : list Entry) :
  (fun e => mkPostForList (post_id (entry_post e)) (post_data (entry_post e)))
    <$> getSortedPosts allBlogPosts
  = getSortedPostsList allBlogPosts
  ∧ (fun e => (entry_post e, pinned e, description e))
      <$> getSortedPosts allBlogPosts
    = (fun e => (entry_post e, pinned e, description e))
        <$> getRawSortedPosts allBlogPosts
  ∧ entry_post <$> getSortedPosts allBlogPosts ≡ₚ entry_post <$> allBlogPosts.
Proof.
  assert (Hcore : (fun e => (entry_post e, pinned e, description e))
                    <$> getSortedPosts allBlogPosts
                  = (fun e => (entry_post e, pinned e, description e))
                      <$> getRawSortedPosts allBlogPosts).
  { apply list_eq. intros i.
    rewrite !list_lookup_fmap, getSortedPosts_lookup.
    destruct (getRawSortedPosts allBlogPosts !! i); reflexivity. }
  assert (Hpost : entry_post <$> getSortedPosts allBlogPosts
                  = entry_post <$> getRawSortedPosts allBlogPosts).
  { apply (f_equal (fmap (fun t : Post * bool * option string => t.1.1))) in Hcore.
    rewrite <- !list_fmap_compose in Hcore. exact Hcore. }
  split; [|split; [exact Hcore|]].
  - unfold getSortedPostsList.
    assert (Hsplit : ∀ l : list Entry,
               (fun e => mkPostForList (post_id (entry_post e))
                                       (post_data (entry_post e))) <$> l
               = (fun q => mkPostForList (post_id q) (post_data q))
                   <$> (entry_post <$> l)).
    { intros l. rewrite <- list_fmap_compose. reflexivity. }
    rewrite !Hsplit, Hpost. reflexivity.
  - rewrite Hpost. unfold getRawSortedPosts. rewrite array_sort_perm.
    reflexivity.
Qed.

Lemma calendarItem_getSortedPosts (allBlogPosts : list Entry) :
  calendarItem <$> getSortedPosts allBlogPosts
  = calendarItem <$> getRawSortedPosts allBlogPosts.
Proof.
  apply list_eq. intros i.
  rewrite !list_lookup_fmap, getSortedPosts_lookup.
  destruct (getRawSortedPosts allBlogPosts !! i); reflexivity.
Qed.

Lemma StronglySorted_weaken {A : Type} (R1 R2 : A -> A -> Prop) (l : list A) :
  (∀ x y, R1 x y -> R2 x y) -> StronglySorted R1 l -> StronglySorted R2 l.
Proof.
  intros Himp. induction 1 as [|x l _ IH Hx]; constructor; [exact IH|].
  eapply Forall_impl; [exact Hx|]. intros y. apply Himp.
Qed.

(** X15. The calendar data lists every post of the collection exactly
    once, latest publish time first whatever the pinned states; each item
    carries the category or the empty string, and of the password only
    whether there is one. *)
Theorem calendarData_newest_first (allBlogPosts : list Entry) :
  calendarData allBlogPosts ≡ₚ calendarItem <$> allBlogPosts
  ∧ StronglySorted (fun a b => (cal_published b <= cal_published a)%Z)
                   (calendarData allBlogPosts)
  ∧ (∀ item, item ∈ calendarData allBlogPosts ->
       ∃ e, e ∈ allBlogPosts
            ∧ cal_id item = post_id (entry_post e)
            ∧ cal_category item = or_empty (category (post_data (entry_post e)))
            ∧ cal_password item
              = truthy_opt (password (post_data (entry_post e)))).
Proof.
  assert (Hperm : calendarData allBlogPosts ≡ₚ calendarItem <$> allBlogPosts).
  { unfold calendarData.
    rewrite array_sort_perm, calendarItem_getSortedPosts.
    unfold getRawSortedPosts. rewrite array_sort_perm. reflexivity. }
  split; [exact Hperm|]. split.
  - apply (StronglySorted_weaken
             (fun a b => (IZR (cal_published b) <= IZR (cal_published a))%R)).
    + intros x y. apply le_IZR.
    + apply (array_sort_descending byPublished
               (fun c => IZR (cal_published c))).
      intros a b. unfold byPublished. apply minus_IZR.
  - intros item Hitem. rewrite Hperm in Hitem.
    apply list_elem_of_fmap in Hitem as (e & -> & He).
    exists e. repeat split; [exact He].
Qed.

(** ** Tag and category lists *)

Lemma countTag_insert (countMap : gmap string nat) (tag : string) :
  countTag countMap tag
  = <[ tag := S (default 0%nat (countMap !! tag)) ]> countMap.
Proof.
  unfold countTag. destruct (countMap !! tag) as [[|n]|] eqn:Ht.
  - rewrite lookup_insert_eq, insert_insert_eq. reflexivity.
  - rewrite Ht. reflexivity.
  - rewrite lookup_insert_eq, insert_insert_eq. reflexivity.
Qed.

Lemma countCategory_insert (count : gmap string nat) (k : string) :
  countCategory count k = <[ k := S (default 0%nat (count !! k)) ]> count.
Proof.
  unfold countCategory. destruct (count !! k) as [[|n]|]; reflexivity.
Qed.

(** Counting a list of keys into a map adds, for every key, the number of
    its occurrences. *)
Lemma foldl_countTag_lookup (ts : list string) (m : gmap string nat) (k : string) :
  foldl countTag m ts !! k
  = match length (filter (fun t => t = k) ts) with
    | O => m !! k
    | S c => Some (S c + default 0 (m !! k))%nat
    end.
Proof.
  revert m. induction ts as [|t ts IH]; intros m; [reflexivity|].
  cbn [foldl]. rewrite IH, countTag_insert, filter_cons.
  destruct (decide (t = k)) as [->|Hne].
  - rewrite lookup_insert_eq. simpl.
    destruct (length (filter (fun t => t = k) ts)); simpl; f_equal; lia.
  - rewrite lookup_insert_ne by exact Hne. reflexivity.
Qed.

Lemma foldl_countCategory (ks : list string) (m : gmap string nat) :
  foldl countCategory m ks = foldl countTag m ks.
Proof.
  revert m. induction ks as [|k ks IH]; intros m; [reflexivity|].
  cbn [foldl]. rewrite IH, countCategory_insert, countTag_insert.
  reflexivity.
Qed.

Lemma counted_lookup (ts : list string) (k : string) :
  foldl countTag ∅ ts !! k
  = match length (filter (fun t => t = k) ts) with
    | O => None
    | S c => Some (S c)
    end.
Proof.
  rewrite foldl_countTag_lookup, lookup_empty.
  destruct (length _); [reflexivity|]. simpl. f_equal. lia.
Qed.

Lemma counted_dom (ts : list string) (k : string) :
  k ∈ dom (foldl countTag ∅ ts) ↔ k ∈ ts.
Proof.
  rewrite elem_of_dom, counted_lookup.
  destruct (length (filter (fun t => t = k) ts)) eqn:Hlen.
  - split; [intros [x Hx]; discriminate Hx|].
    intros Hin. exfalso.
    assert (Hk : k ∈ filter (fun t => t = k) ts)
      by (apply list_elem_of_filter; split; [reflexivity|exact Hin]).
    destruct (filter (fun t => t = k) ts); [|discriminate Hlen].
    apply elem_of_nil in Hk. exact Hk.
  - split; [|eauto]. intros _.
    destruct (filter (fun t => t = k) ts) as [|x l] eqn:Hf; [discriminate Hlen|].
    assert (Hx : x ∈ filter (fun t => t = k) ts) by (rewrite Hf; left).
    apply list_elem_of_filter in Hx as [-> Hx]. exact Hx.
Qed.

Lemma sum_list_with_ext_in {A : Type} (f g : A -> nat) (l : list A) :
  (∀ x, x ∈ l -> f x = g x) -> sum_list_with f l = sum_list_with g l.
Proof.
  induction l as [|x l IH]; intros Hfg; [reflexivity|].
  simpl. rewrite (Hfg x) by left. rewrite IH; [reflexivity|].
  intros y Hy. apply Hfg. right. exact Hy.
Qed.

Lemma sum_list_with_map {A B : Type} (f : B -> nat) (g : A -> B) (l : list A) :
  sum_list_with f (g <$> l) = sum_list_with (fun x => f (g x)) l.
Proof.
  induction l as [|x l IH]; [reflexivity|].
  rewrite fmap_cons. simpl. rewrite IH. reflexivity.
Qed.

(** The occurrences of the distinct keys add up to the length. *)
Lemma sum_occurrences (ks ts : list string) :
  NoDup ks -> (∀ t, t ∈ ts ↔ t ∈ ks) ->
  sum_list_with (fun k => length (filter (fun t => t = k) ts)) ks = length ts.
Proof.
  revert ts. induction ks as [|k ks IH]; intros ts Hnd Hks.
  - destruct ts as [|t ts]; [reflexivity|].
    exfalso. apply (elem_of_nil t), Hks. left.
  - apply NoDup_cons in Hnd as [Hk Hnd]. simpl.
    assert (Hsplit : length ts
                     = (length (filter (fun t => t = k) ts)
                        + length (filter (fun t => ¬ t = k) ts))%nat).
    { rewrite <- length_app. apply Permutation_length. symmetry.
      apply filter_app_complement. }
    rewrite Hsplit. f_equal.
    rewrite <- (IH (filter (fun t => ¬ t = k) ts) Hnd).
    + apply sum_list_with_ext_in. intros k' Hk'.
      rewrite list_filter_filter. f_equal.
      apply list_filter_iff. intros t. split; [|tauto].
      intros ->. split; [reflexivity|].
      intros ->. contradiction.
    + intros t. rewrite list_elem_of_filter, Hks, elem_of_cons. split.
      * intros [Hne [He|Hin]]; [contradiction|exact Hin].
      * intros Hin. split; [|right; exact Hin].
        intros ->. contradiction.
Qed.

Lemma countTags_fold (allBlogPosts : list Post) (acc : option (gmap string nat)) :
  foldl (fun acc p =>
           match acc, tags (post_data p) with
           | Some countMap, Some ts => Some (foldl countTag countMap ts)
           | _, _ => None
           end) acc allBlogPosts
  = match acc with
    | Some m =>
        if decide (Forall (fun p => is_Some (tags (post_data p))) allBlogPosts)
        then Some (foldl countTag m
                     (concat ((fun p => or_nil (tags (post_data p)))
                                <$> allBlogPosts)))
        else None
    | None => None
    end.
Proof.
  revert acc. induction allBlogPosts as [|p l IH]; intros acc.
  - destruct acc; [|reflexivity]. cbn [foldl].
    destruct (decide (Forall _ [])) as [_|Hn]; [reflexivity|].
    exfalso. apply Hn. constructor.
  - cbn [foldl]. rewrite IH. destruct acc as [m|].
    + destruct (tags (post_data p)) as [ts|] eqn:Hts.
      * destruct (decide (Forall _ l)) as [Hl|Hl].
        -- rewrite decide_True by (constructor; [rewrite Hts; eauto|exact Hl]).
           rewrite fmap_cons, concat_cons, foldl_app, Hts. reflexivity.
        -- rewrite decide_False; [reflexivity|].
           intros Hall. apply Hl. apply Forall_cons in Hall. tauto.
      * rewrite decide_False; [reflexivity|].
        intros Hall. apply Forall_cons in Hall as [[x Hx] _].
        rewrite Hts in Hx. discriminate Hx.
    + reflexivity.
Qed.

Lemma missing_tags (l : list Post) :
  ¬ Forall (fun p => is_Some (tags (post_data p))) l ->
  ∃ p, p ∈ l ∧ tags (post_data p) = None.
Proof.
  induction l as [|p l IH]; intros Hnot.
  - exfalso. apply Hnot. constructor.
  - destruct (tags (post_data p)) as [ts|] eqn:Hts.
    + destruct IH as (q & Hq & Hnone).
      * intros Hl. apply Hnot. constructor; [rewrite Hts; eauto|exact Hl].
      * exists q. split; [right; exact Hq|exact Hnone].
    + exists p. split; [left|exact Hts].
Qed.

Lemma tag_name_fmap (f : string -> nat) (keys : list string) :
  tag_name <$> ((fun key => mkTag key (f key)) <$> keys) = keys.
Proof.
  induction keys as [|k ks IH]; [reflexivity|].
  rewrite !fmap_cons, IH. reflexivity.
Qed.

Lemma cat_name_fmap (f : string -> nat) (g : string -> string)
      (keys : list string) :
  cat_name <$> ((fun c => mkCategory c (f c) (g c)) <$> keys) = keys.
Proof.
  induction keys as [|k ks IH]; [reflexivity|].
  rewrite !fmap_cons, IH. reflexivity.
Qed.

Section ListFacts.

Variable toLowerCase : string -> string.
Variable localeCompare : string -> string -> R.
Variable Object_keys : gmap string nat -> list string.
Variable trim : string -> string.
Variable uncategorized : string.
Variable getCategoryUrl : string -> string.

Abbreviation getTagList' :=
  (getTagList toLowerCase localeCompare Object_keys).
Abbreviation getCategoryList' :=
  (getCategoryList toLowerCase localeCompare Object_keys trim uncategorized
                   getCategoryUrl).
Abbreviation categoryKey' := (categoryKey trim uncategorized).
Abbreviation byLowerCase' := (byLowerCase toLowerCase localeCompare).

(** X16. When every post has a tag array and no tag is the name of a
    member of [Object.prototype], [getTagList] is fulfilled with one entry
    per distinct tag; the entry's count is the number of occurrences of
    the tag over all posts, at least 1, and the counts add up to the
    number of tag occurrences. *)
Theorem getTagList_counts (allBlogPosts : list Post) :
  let allTags := concat ((fun p => or_nil (tags (post_data p))) <$> allBlogPosts) in
  (∀ m, Object_keys m ≡ₚ elements (dom m)) ->
  Forall (fun p => is_Some (tags (post_data p))) allBlogPosts ->
  Forall (fun t => t ∉ Object_prototype_names) allTags ->
  ∃ l, getTagList' allBlogPosts = Fulfilled l
       ∧ NoDup (tag_name <$> l)
       ∧ (∀ t, t ∈ tag_name <$> l ↔ t ∈ allTags)
       ∧ (∀ tg, tg ∈ l ->
            tag_count tg = length (filter (fun t => t = tag_name tg) allTags)
            ∧ (1 <= tag_count tg)%nat)
       ∧ sum_list_with tag_count l = length allTags.
Proof.
  intros allTags Hkeys Hall _. unfold getTagList, countTags.
  rewrite countTags_fold, decide_True by exact Hall. fold allTags.
  set (m := foldl countTag ∅ allTags).
  set (keys := array_sort _ (Object_keys m)).
  assert (Hperm : keys ≡ₚ elements (dom m)).
  { unfold keys. rewrite array_sort_perm. apply Hkeys. }
  assert (Hnd : NoDup keys) by (rewrite Hperm; apply NoDup_elements).
  assert (Hin : ∀ t, t ∈ keys ↔ t ∈ allTags).
  { intros t. rewrite Hperm, elem_of_elements. apply counted_dom. }
  assert (Hcount : ∀ k, k ∈ keys ->
             default 0%nat (m !! k)
             = length (filter (fun t => t = k) allTags)
             ∧ (1 <= default 0%nat (m !! k))%nat).
  { intros k Hk. unfold m. rewrite counted_lookup.
    apply Hin, counted_dom, elem_of_dom in Hk as [x Hx].
    rewrite counted_lookup in Hx.
    destruct (length (filter (fun t => t = k) allTags));
      [discriminate Hx|]. simpl. split; [reflexivity|lia]. }
  eexists. split; [reflexivity|].
  rewrite tag_name_fmap.
  split; [exact Hnd|]. split; [exact Hin|]. split.
  - intros tg Htg. apply list_elem_of_fmap in Htg as (k & -> & Hk). simpl.
    apply Hcount, Hk.
  - rewrite <- (sum_occurrences keys allTags Hnd) by (intros t; symmetry; apply Hin).
    rewrite sum_list_with_map. apply sum_list_with_ext_in.
    intros k Hk. simpl. apply Hcount, Hk.
Qed.

(** X17. [getTagList] fails exactly when some post has no tag array. *)
Theorem getTagList_rejects_iff (allBlogPosts : list Post) :
  (getTagList' allBlogPosts = Rejected "TypeError"
   ↔ ∃ p, p ∈ allBlogPosts ∧ tags (post_data p) = None)
  ∧ ((∀ p, p ∈ allBlogPosts -> is_Some (tags (post_data p))) ->
     ∃ l, getTagList' allBlogPosts = Fulfilled l).
Proof.
  unfold getTagList, countTags. rewrite countTags_fold.
  destruct (decide (Forall (fun p => is_Some (tags (post_data p))) allBlogPosts))
    as [Hall|Hnot].
  - split.
    + split; [intros H; discriminate H|].
      intros (p & Hp & Hnone). rewrite Forall_forall in Hall.
      destruct (Hall p Hp) as [x Hx]. congruence.
    + intros _. eexists. reflexivity.
  - split.
    + split; [|reflexivity]. intros _.
      apply missing_tags. exact Hnot.
    + intros Hall. exfalso. apply Hnot, Forall_forall. exact Hall.
Qed.

(** X18. When [localeCompare] is an order (any two strings comparable,
    and transitive), the tags come out in ascending order of their
    lower-cased names. *)
Theorem getTagList_sorted (allBlogPosts : list Post) (l : list Tag) :
  (∀ a b, (localeCompare a b <= 0)%R ∨ (localeCompare b a <= 0)%R) ->
  (∀ a b c, (localeCompare a b <= 0)%R -> (localeCompare b c <= 0)%R ->
            (localeCompare a c <= 0)%R) ->
  getTagList' allBlogPosts = Fulfilled l ->
  StronglySorted (fun a b => (byLowerCase' (tag_name a) (tag_name b) <= 0)%R) l.
Proof.
  intros Htotal Htrans Hl. unfold getTagList in Hl.
  destruct (countTags allBlogPosts) as [m|]; [|discriminate Hl].
  injection Hl as <-.
  apply (StronglySorted_fmap _ (fun a b => (byLowerCase' a b <= 0)%R)).
  - intros x y Hxy. exact Hxy.
  - apply array_sort_sorted_by.
    + intros x y z. unfold byLowerCase. apply Htrans.
    + intros i j x y _ _ _. split; [intros H; exact H|].
      intros Hgt. unfold byLowerCase in Hgt |- *.
      destruct (Htotal (toLowerCase x) (toLowerCase y)) as [H|H];
        [contradiction|exact H].
Qed.

(** X19. When no category key is the name of a member of
    [Object.prototype], [getCategoryList] has one entry per distinct key,
    where a post without category (absent or empty) is counted under the
    "uncategorized" label and any other post under its trimmed category.
    The count of an entry is the number of posts with that key, the url is
    the category url of the name, and the counts add up to the number of
    posts: every post is counted exactly once. *)
Theorem getCategoryList_counts (allBlogPosts : list Post) :
  (∀ m, Object_keys m ≡ₚ elements (dom m)) ->
  Forall (fun p => categoryKey' p ∉ Object_prototype_names) allBlogPosts ->
  NoDup (cat_name <$> getCategoryList' allBlogPosts)
  ∧ (∀ k, k ∈ cat_name <$> getCategoryList' allBlogPosts
          ↔ ∃ p, p ∈ allBlogPosts ∧ categoryKey' p = k)
  ∧ (∀ c, c ∈ getCategoryList' allBlogPosts ->
       cat_count c
       = length (filter (fun p => categoryKey' p = cat_name c) allBlogPosts)
       ∧ cat_url c = getCategoryUrl (cat_name c))
  ∧ sum_list_with cat_count (getCategoryList' allBlogPosts)
    = length allBlogPosts.
Proof.
  intros Hkeys _. unfold getCategoryList, countCategories.
  set (ks := categoryKey' <$> allBlogPosts).
  assert (Hfold : foldl (fun count p => countCategory count (categoryKey' p))
                        ∅ allBlogPosts
                  = foldl countTag ∅ ks).
  { unfold ks. rewrite <- foldl_countCategory.
    generalize (∅ : gmap string nat).
    induction allBlogPosts as [|p l IH]; intros m; [reflexivity|].
    rewrite fmap_cons. cbn [foldl]. apply IH. }
  rewrite Hfold. set (m := foldl countTag ∅ ks).
  set (keys := array_sort _ (Object_keys m)).
  assert (Hperm : keys ≡ₚ elements (dom m)).
  { unfold keys. rewrite array_sort_perm. apply Hkeys. }
  assert (Hnd : NoDup keys) by (rewrite Hperm; apply NoDup_elements).
  assert (Hin : ∀ t, t ∈ keys ↔ t ∈ ks).
  { intros t. rewrite Hperm, elem_of_elements. apply counted_dom. }
  assert (Hocc : ∀ k, length (filter (fun t => t = k) ks)
                      = length (filter (fun p => categoryKey' p = k) allBlogPosts)).
  { intros k. unfold ks. rewrite filter_fmap_comm, length_fmap. reflexivity. }
  assert (Hcount : ∀ k, k ∈ keys ->
             default 0%nat (m !! k) = length (filter (fun t => t = k) ks)).
  { intros k Hk. unfold m. rewrite counted_lookup.
    apply Hin, counted_dom, elem_of_dom in Hk as [x Hx].
    rewrite counted_lookup in Hx.
    destruct (length (filter (fun t => t = k) ks)); [discriminate Hx|].
    reflexivity. }
  rewrite cat_name_fmap.
  split; [exact Hnd|]. split; [|split].
  - intros k. rewrite Hin. unfold ks. rewrite list_elem_of_fmap.
    split; intros (p & H1 & H2); exists p; split; auto.
  - intros c Hc. apply list_elem_of_fmap in Hc as (k & -> & Hk). simpl.
    split; [|reflexivity]. rewrite <- Hocc. apply Hcount, Hk.
  - rewrite <- (length_fmap categoryKey' allBlogPosts). fold ks.
    rewrite <- (sum_occurrences keys ks Hnd) by (intros t; symmetry; apply Hin).
    rewrite sum_list_with_map. apply sum_list_with_ext_in.
    intros k Hk. simpl. apply Hcount, Hk.
Qed.

(** X20. When [localeCompare] is an order and no category key is the
    name of a member of [Object.prototype], the categories come out by
    decreasing count and, for equal counts, in ascending order of their
    lower-cased names. *)
Theorem getCategoryList_sorted (allBlogPosts : list Post) :
  Forall (fun p => categoryKey' p ∉ Object_prototype_names) allBlogPosts ->
  (∀ a b, (localeCompare a b <= 0)%R ∨ (localeCompare b a <= 0)%R) ->
  (∀ a b c, (localeCompare a b <= 0)%R -> (localeCompare b c <= 0)%R ->
            (localeCompare a c <= 0)%R) ->
  StronglySorted
    (fun a b => (cat_count b < cat_count a)%nat
                ∨ (cat_count a = cat_count b
                   ∧ (byLowerCase' (cat_name a) (cat_name b) <= 0)%R))
    (getCategoryList' allBlogPosts).
Proof.
  intros _ Htotal Htrans. unfold getCategoryList.
  set (count := countCategories trim uncategorized allBlogPosts).
  set (n := fun k : string => default 0%nat (count !! k)).
  apply (StronglySorted_fmap _
           (fun a b => (n b < n a)%nat
                       ∨ (n a = n b ∧ (byLowerCase' a b <= 0)%R))).
  - intros x y Hxy. exact Hxy.
  - assert (Hcmp : ∀ x y,
               ((byCountThenLowerCase toLowerCase localeCompare count x y <= 0)%R ->
                (n y < n x)%nat ∨ (n x = n y ∧ (byLowerCase' x y <= 0)%R))
               ∧ (¬ (byCountThenLowerCase toLowerCase localeCompare count x y <= 0)%R ->
                  (n x < n y)%nat ∨ (n y = n x ∧ (byLowerCase' y x <= 0)%R))).
    { intros x y. unfold byCountThenLowerCase. fold (n x) (n y).
      destruct (decide (IZR (Z.of_nat (n y) - Z.of_nat (n x)) = 0%R)) as [Hz|Hnz].
      - apply eq_IZR in Hz.
        split; intros H; right; (split; [lia|]); [exact H|].
        unfold byLowerCase in *.
        destruct (Htotal (toLowerCase x) (toLowerCase y)); tauto.
      - split; intros H.
        + left. apply (le_IZR _ 0) in H.
          assert (Z.of_nat (n y) - Z.of_nat (n x) ≠ 0)%Z
            by (intros He; apply Hnz; rewrite He; reflexivity).
          lia.
        + left. destruct (Z_le_gt_dec (Z.of_nat (n y) - Z.of_nat (n x)) 0)
            as [Hle|Hgt]; [|lia].
          exfalso. apply H. apply (IZR_le _ 0). exact Hle. }
    apply array_sort_sorted_by.
    + intros x y z [H1|[H1 H1']] [H2|[H2 H2']].
      * left. lia.
      * left. lia.
      * left. lia.
      * right. split; [lia|]. unfold byLowerCase in *.
        eapply Htrans; eassumption.
    + intros i j x y _ _ _. apply Hcmp.
Qed.

End ListFacts.

(** ** Friend links *)

(** X21. [getEnabledFriends] returns exactly the enabled entries of the
    configured list, by decreasing weight; entries of equal weight keep
    their configured order. *)
Theorem getEnabledFriendsOf_spec (friendsConfig : list FriendLink) :
  getEnabledFriendsOf friendsConfig
  ≡ₚ filter (fun friend => friend_enabled friend = true) friendsConfig
  ∧ StronglySorted (fun a b => (friend_weight b <= friend_weight a)%Z)
                   (getEnabledFriendsOf friendsConfig)
  ∧ (∀ w : Z,
       filter (fun friend => friend_weight friend = w)
              (getEnabledFriendsOf friendsConfig)
       = filter (fun friend => friend_weight friend = w
                               ∧ friend_enabled friend = true) friendsConfig).
Proof.
  unfold getEnabledFriendsOf. split; [apply array_sort_perm|]. split.
  - apply (StronglySorted_weaken
             (fun a b => (IZR (friend_weight b) <= IZR (friend_weight a))%R)).
    + intros x y. apply le_IZR.
    + apply (array_sort_descending byWeight (fun f => IZR (friend_weight f))).
      intros a b. unfold byWeight. apply minus_IZR.
  - intros w. rewrite filter_array_sort.
    + apply list_filter_filter.
    + intros x y Hx Hy. unfold byWeight. rewrite Hx, Hy, Z.sub_diag. lra.
Qed.

(** ** Instances of the further properties *)


Lemma getRelatedPosts_NoDup_witness :
  NoDup (pfl_id <$> sample_related 5).
Proof.
  apply (getRelatedPosts_NoDup ascii_segment ascii_toLowerCase 0
           sample_corpus sample_reference 5).
  by_compute.
Defined.

Lemma getRelatedPosts_prefix_witness :
  sample_related 1 = take 1 (sample_related 5).
Proof.
  apply (getRelatedPosts_prefix ascii_segment ascii_toLowerCase 0
           sample_corpus sample_reference 1 5).
  lia.
Defined.

Lemma getRelatedPosts_ignores_excluded_witness :
  sample_related 5
  = getRelatedPosts ascii_segment ascii_toLowerCase 0
      [sample_reference; sample_y; sample_x; sample_future] sample_reference 5.
Proof.
  apply (getRelatedPosts_ignores_excluded ascii_segment ascii_toLowerCase 0
           [sample_reference; sample_y] [sample_x; sample_future]
           sample_locked sample_reference 5).
  right. reflexivity.
Defined.

Lemma getRelatedPosts_without_tags_witness :
  withTagMatch
    (sortedScored ascii_segment ascii_toLowerCase 0 sample_corpus sample_future)
  = [].
Proof.
  apply (getRelatedPosts_without_tags ascii_segment ascii_toLowerCase 0
           sample_corpus sample_future 5).
  reflexivity.
Defined.


Lemma sample_localeCompare_total (a b : string) :
  (sample_localeCompare a b <= 0)%R ∨ (sample_localeCompare b a <= 0)%R.
Proof.
  unfold sample_localeCompare.
  destruct (Z_le_gt_dec (Z.pos (encode a)) (Z.pos (encode b))) as [H|H].
  - left. apply (IZR_le _ 0). lia.
  - right. apply (IZR_le _ 0). lia.
Qed.

Lemma sample_localeCompare_trans (a b c : string) :
  (sample_localeCompare a b <= 0)%R -> (sample_localeCompare b c <= 0)%R ->
  (sample_localeCompare a c <= 0)%R.
Proof.
  unfold sample_localeCompare. intros H1 H2.
  apply (le_IZR _ 0) in H1, H2. apply (IZR_le _ 0). lia.
Qed.

Lemma getTagList_counts_witness :
  ∃ l, getTagList ascii_toLowerCase sample_localeCompare sample_Object_keys
         sample_posts = Fulfilled l
       ∧ sum_list_with tag_count l = 4%nat.
Proof.
  destruct (getTagList_counts ascii_toLowerCase sample_localeCompare
              sample_Object_keys sample_posts)
    as (l & Hl & _ & _ & _ & Hsum).
  - intros m. reflexivity.
  - by_compute.
  - by_compute.
  - exists l. split; [exact Hl|exact Hsum].
Defined.

Lemma getTagList_sorted_witness :
  ∃ l, getTagList ascii_toLowerCase sample_localeCompare sample_Object_keys
         sample_posts = Fulfilled l
       ∧ StronglySorted
           (fun a b => (byLowerCase ascii_toLowerCase sample_localeCompare
                          (tag_name a) (tag_name b) <= 0)%R) l.
Proof.
  assert (Hl : ∃ l, getTagList ascii_toLowerCase sample_localeCompare
                      sample_Object_keys sample_posts = Fulfilled l).
  { unfold getTagList.
    destruct (countTags sample_posts) eqn:Hc; [eexists; reflexivity|].
    vm_compute in Hc. discriminate Hc. }
  destruct Hl as [l Hl]. exists l. split; [exact Hl|].
  exact (getTagList_sorted ascii_toLowerCase sample_localeCompare
           sample_Object_keys sample_posts l
           sample_localeCompare_total sample_localeCompare_trans Hl).
Defined.

Lemma getCategoryList_counts_witness :
  sum_list_with cat_count
    (getCategoryList ascii_toLowerCase sample_localeCompare sample_Object_keys
       sample_trim "Uncategorized" sample_getCategoryUrl sample_corpus)
  = 5%nat.
Proof.
  apply (getCategoryList_counts ascii_toLowerCase sample_localeCompare
           sample_Object_keys sample_trim "Uncategorized"
           sample_getCategoryUrl sample_corpus).
  - intros m. reflexivity.
  - by_compute.
Defined.

Lemma getCategoryList_sorted_witness :
  StronglySorted
    (fun a b => (cat_count b < cat_count a)%nat
                ∨ (cat_count a = cat_count b
                   ∧ (byLowerCase ascii_toLowerCase sample_localeCompare
                        (cat_name a) (cat_name b) <= 0)%R))
    (getCategoryList ascii_toLowerCase sample_localeCompare sample_Object_keys
       sample_trim "Uncategorized" sample_getCategoryUrl sample_corpus).
Proof.
  apply (getCategoryList_sorted ascii_toLowerCase sample_localeCompare
           sample_Object_keys sample_trim "Uncategorized"
           sample_getCategoryUrl sample_corpus).
  - by_compute.
  - exact sample_localeCompare_total.
  - exact sample_localeCompare_trans.
Defined.


(** ** Diagram rendering *)

(** One iteration of the loop, while attempts remain and there is code. *)
Lemma render_loop_step (fuel : nat) code render (attempts : nat) (st : RenderState) :
  (attempts < 3)%nat -> truthy_opt code = true ->
  render_loop (S fuel) code render attempts st
  = match render attempts with
    | Some svg => mkRenderState (SvgHTML svg) (S (renderCalls st)) (timeouts st)
    | None =>
        if decide (attempts = 2%nat)
        then render_loop fuel code render (S attempts)
               (mkRenderState ErrorHTML (S (renderCalls st)) (timeouts st))
        else render_loop fuel code render (S attempts)
               (mkRenderState LoadingHTML (S (renderCalls st))
                  (timeouts st ++ [500 * Z.of_nat (S attempts)]%Z))
    end.
Proof.
  intros Hlt Hcode. cbn [render_loop]. unfold maxAttempts.
  rewrite decide_True by exact Hlt. rewrite Hcode.
  destruct (render attempts); [reflexivity|].
  destruct (decide (attempts = 2%nat)) as [->|Hne].
  - rewrite decide_True by lia. reflexivity.
  - rewrite decide_False by lia. reflexivity.
Qed.

Lemma render_loop_done (fuel : nat) code render (st : RenderState) :
  render_loop fuel code render 3 st = st.
Proof.
  destruct fuel; [reflexivity|]. cbn [render_loop]. unfold maxAttempts.
  rewrite decide_False by lia. reflexivity.
Qed.

Lemma render_loop_no_code (fuel : nat) code render (attempts : nat)
      (st : RenderState) :
  truthy_opt code = false -> render_loop fuel code render attempts st = st.
Proof.
  intros Hcode. destruct fuel; [reflexivity|]. cbn [render_loop].
  rewrite Hcode. destruct (decide _); reflexivity.
Qed.

Lemma render_loop_three (fuel : nat) code render :
  truthy_opt code = true ->
  render_loop (S (S (S fuel))) code render 0 (mkRenderState InitialHTML 0 [])
  = match render 0%nat, render 1%nat, render 2%nat with
    | Some svg, _, _ => mkRenderState (SvgHTML svg) 1 []
    | None, Some svg, _ => mkRenderState (SvgHTML svg) 2 [500%Z]
    | None, None, Some svg => mkRenderState (SvgHTML svg) 3 [500%Z; 1000%Z]
    | None, None, None => mkRenderState ErrorHTML 3 [500%Z; 1000%Z]
    end.
Proof.
  intros Hcode. rewrite render_loop_step by (lia || exact Hcode).
  destruct (render 0%nat); [reflexivity|].
  rewrite decide_False by lia.
  rewrite render_loop_step by (lia || exact Hcode).
  destruct (render 1%nat); [reflexivity|].
  rewrite decide_False by lia.
  rewrite render_loop_step by (lia || exact Hcode).
  destruct (render 2%nat); [reflexivity|].
  rewrite decide_True by reflexivity.
  apply render_loop_done.
Qed.

(** X22. One element is rendered with at most three calls of
    [mermaid.render].  Without code nothing is touched.  Otherwise the
    first call that succeeds ends the loop with its diagram shown, after a
    wait of 500 ms times the number of failures so far following each
    failure; after three failures the error box is shown and no further
    wait is made.  More iterations than three change nothing. *)
Theorem renderElement_outcome (code : option string) (render : nat -> option string) :
  (truthy_opt code = false ->
   renderElement code render = mkRenderState InitialHTML 0 [])
  ∧ (truthy_opt code = true ->
     renderElement code render
     = match render 0%nat, render 1%nat, render 2%nat with
       | Some svg, _, _ => mkRenderState (SvgHTML svg) 1 []
       | None, Some svg, _ => mkRenderState (SvgHTML svg) 2 [500%Z]
       | None, None, Some svg => mkRenderState (SvgHTML svg) 3 [500%Z; 1000%Z]
       | None, None, None => mkRenderState ErrorHTML 3 [500%Z; 1000%Z]
       end)
  ∧ (renderCalls (renderElement code render) <= 3)%nat
  ∧ innerHTML (renderElement code render) ≠ LoadingHTML
  ∧ (∀ fuel, (maxAttempts <= fuel)%nat ->
       render_loop fuel code render 0 (mkRenderState InitialHTML 0 [])
       = renderElement code render).
Proof.
  assert (Hfuel : ∀ fuel, (maxAttempts <= fuel)%nat ->
            render_loop fuel code render 0 (mkRenderState InitialHTML 0 [])
            = renderElement code render).
  { intros fuel Hf. unfold renderElement, maxAttempts in *.
    destruct fuel as [|[|[|fuel]]]; try lia.
    destruct (truthy_opt code) eqn:Hcode.
    - rewrite !render_loop_three by exact Hcode. reflexivity.
    - rewrite !render_loop_no_code by exact Hcode. reflexivity. }
  refine (conj _ (conj _ (conj _ (conj _ Hfuel)))); clear Hfuel;
    unfold renderElement, maxAttempts.
  - intros Hcode. apply render_loop_no_code, Hcode.
  - intros Hcode. apply render_loop_three, Hcode.
  - destruct (truthy_opt code) eqn:Hcode.
    + rewrite render_loop_three by exact Hcode.
      destruct (render 0%nat), (render 1%nat), (render 2%nat); simpl; lia.
    + rewrite render_loop_no_code by exact Hcode. simpl. lia.
  - destruct (truthy_opt code) eqn:Hcode.
    + rewrite render_loop_three by exact Hcode.
      destruct (render 0%nat), (render 1%nat), (render 2%nat); discriminate.
    + rewrite render_loop_no_code by exact Hcode. discriminate.
Qed.

Lemma jaccardSimilarity_one_iff_witness :
  jaccardSimilarity (tagsOf sample_x) (tagsOf sample_x) = 1%R.
Proof.
  apply (jaccardSimilarity_one_iff (tagsOf sample_x) (tagsOf sample_x)).
  split; [reflexivity|].
  intros He.
  assert (Hs : size (tagsOf sample_x) = 0%nat) by (rewrite He; apply size_empty).
  vm_compute in Hs. discriminate Hs.
Defined.


Lemma titleSimilarityScoreOf_zero_witness :
  titleSimilarityScoreOf ascii_segment ascii_toLowerCase sample_reference
    (mkPost "blank" (mkPostData " " None None 0 None)) = 0%R.
Proof.
  apply (proj1 (proj2 (titleSimilarityScoreOf_zero ascii_segment ascii_toLowerCase
           sample_reference (mkPost "blank" (mkPostData " " None None 0 None))))).
  intros s Hs. cbn [title post_data] in Hs.
  assert (Hseg : ascii_segment " " = [(" ", false)]) by reflexivity.
  rewrite Hseg in Hs.
  apply elem_of_cons in Hs as [Hs|Hs]; [discriminate Hs|].
  apply elem_of_nil in Hs. exact Hs.
Defined.

Lemma sample_getRawSortedPosts :
  getRawSortedPosts sample_entries
  = [ mkEntry sample_reference true (Some "about caches") None None None None;
      mkEntry sample_y false None None None None None;
      mkEntry sample_x false None None None None None ].
Proof.
  unfold getRawSortedPosts, sample_entries, array_sort. cbn [foldr].
  change (sort_insert byPinnedThenDate
            (mkEntry sample_y false None None None None None) [])
    with [mkEntry sample_y false None None None None None].
  rewrite sort_insert_keep
    by (replace (byPinnedThenDate _ _) with (-1)%R by reflexivity; lra).
  rewrite sort_insert_pass
    by (replace (byPinnedThenDate _ _) with 1%R by reflexivity; lra).
  rewrite sort_insert_pass
    by (replace (byPinnedThenDate _ _) with 1%R by reflexivity; lra).
  reflexivity.
Qed.

Lemma getSortedPosts_links_witness :
  ∃ a b, getSortedPosts sample_entries !! 0%nat = Some a
         ∧ getSortedPosts sample_entries !! 1%nat = Some b
         ∧ prevSlug a = Some "y" ∧ nextSlug b = Some "ref"
         ∧ nextSlug a = None.
Proof.
  assert (Hr : getSortedPosts sample_entries
               = [ mkEntry sample_reference true (Some "about caches")
                           None None (Some "y") (Some "building a cache");
                   mkEntry sample_y false None
                           (Some "ref") (Some "Building a Cache")
                           (Some "x") (Some "Queues");
                   mkEntry sample_x false None
                           (Some "y") (Some "building a cache") None None ]).
  { unfold getSortedPosts. rewrite sample_getRawSortedPosts. reflexivity. }
  destruct (getSortedPosts_links sample_entries) as (_ & Hadj & Hfirst & _).
  eexists. eexists.
  split; [rewrite Hr; reflexivity|]. split; [rewrite Hr; reflexivity|].
  destruct (Hadj 0%nat _ _ ltac:(rewrite Hr; reflexivity)
                 ltac:(rewrite Hr; reflexivity)) as (Hp & _ & Hn & _).
  split; [exact Hp|]. split; [exact Hn|].
  apply (Hfirst _ _ ltac:(rewrite Hr; reflexivity)
                ltac:(rewrite sample_getRawSortedPosts; reflexivity)).
Defined.

Lemma getTagList_rejects_iff_witness :
  getTagList ascii_toLowerCase sample_localeCompare sample_Object_keys
    sample_corpus = Rejected "TypeError".
Proof.
  apply (getTagList_rejects_iff ascii_toLowerCase sample_localeCompare
           sample_Object_keys sample_corpus).
  exists sample_future. split; [by_compute|reflexivity].
Defined.
